(** * A shallow embedding of the tag-markup parser of huozi-rs ([src/parser.rs]).

    The Rust parser is written with nom's combinators over [&str].  We model
    a [&str] as a Rocq [string] (a list of bytes): every special character
    of the grammar is ASCII, and in valid UTF-8 no byte of a multi-byte
    character is ASCII, so matching byte by byte and character by character
    agree.  A borrowed span of the input is modelled by the string it holds.

    nom's [IResult] for complete input has three outcomes, modelled by [res]:
    success with the remaining input, a recoverable [Err::Error] and a fatal
    [Err::Failure]; error payloads ([VerboseError]) are not modelled. *)

From Stdlib Require Import String Ascii List Bool Arith Lia.
Import ListNotations.
Open Scope list_scope.
Open Scope string_scope.

(** ** Results and combinators (nom, [complete] flavour) *)

Module Nom.

Inductive res (A : Type) : Type :=
| Ok (rest : string) (v : A)
| Error
| Failure.
Arguments Ok {A} rest v.
Arguments Error {A}.
Arguments Failure {A}.

Definition Parser (A : Type) : Type := string -> res A.

Definition bind {A B} (m : res A) (k : string -> A -> res B) : res B :=
  match m with
  | Ok r x => k r x
  | Error => Error
  | Failure => Failure
  end.

Definition dq : ascii := "034".
Definition bs : ascii := "092".

Fixpoint in_chars (c : ascii) (chars : string) : bool :=
  match chars with
  | EmptyString => false
  | String d cs => if ascii_dec c d then true else in_chars c cs
  end.

(** [char c] *)
Definition char (c : ascii) : Parser ascii := fun s =>
  match s with
  | String d s' => if ascii_dec c d then Ok s' c else Error
  | EmptyString => Error
  end.

(** [tag t] *)
Fixpoint strip_prefix (t s : string) : option string :=
  match t, s with
  | EmptyString, _ => Some s
  | String c t', String d s' => if ascii_dec c d then strip_prefix t' s' else None
  | String _ _, EmptyString => None
  end.

Definition tag (t : string) : Parser string := fun s =>
  match strip_prefix t s with
  | Some r => Ok r t
  | None => Error
  end.

(** Longest prefix of [s] none of whose characters satisfies [stop]. *)
Fixpoint span_until (stop : ascii -> bool) (s : string) : string * string :=
  match s with
  | EmptyString => (EmptyString, EmptyString)
  | String c s' =>
      if stop c then (EmptyString, s)
      else let (a, b) := span_until stop s' in (String c a, b)
  end.

(** [is_not chars] = [split_at_position1_complete]: at least one character. *)
Definition is_not (chars : string) : Parser string := fun s =>
  let (run, rest) := span_until (fun c => in_chars c chars) s in
  match run with
  | EmptyString => Error
  | _ => Ok rest run
  end.

Definition is_multispace (c : ascii) : bool :=
  in_chars c (String " " (String "009" (String "013" (String "010" EmptyString)))).

(** [multispace0] = [split_at_position_complete]: never fails. *)
Definition multispace0 : Parser string := fun s =>
  let (run, rest) := span_until (fun c => negb (is_multispace c)) s in
  Ok rest run.

(** [one_of chars] *)
Definition one_of (chars : string) : Parser ascii := fun s =>
  match s with
  | String c s' => if in_chars c chars then Ok s' c else Error
  | EmptyString => Error
  end.

(** [eof] *)
Definition eof : Parser string := fun s =>
  match s with
  | EmptyString => Ok s s
  | _ => Error
  end.

Definition preceded {A B} (p : Parser A) (q : Parser B) : Parser B := fun s =>
  bind (p s) (fun r _ => q r).

Definition terminated {A B} (p : Parser A) (q : Parser B) : Parser A := fun s =>
  bind (p s) (fun r x => bind (q r) (fun r' _ => Ok r' x)).

Definition separated_pair {A B C} (p : Parser A) (sep : Parser B) (q : Parser C)
  : Parser (A * C) := fun s =>
  bind (p s) (fun r1 x => bind (sep r1) (fun r2 _ => bind (q r2) (fun r3 y => Ok r3 (x, y)))).

Definition tuple2 {A B} (p : Parser A) (q : Parser B) : Parser (A * B) := fun s =>
  bind (p s) (fun r1 x => bind (q r1) (fun r2 y => Ok r2 (x, y))).

(** [alt((p, q))]: the second branch is tried only on a recoverable error. *)
Definition alt {A} (p q : Parser A) : Parser A := fun s =>
  match p s with
  | Error => q s
  | r => r
  end.

Definition cut {A} (p : Parser A) : Parser A := fun s =>
  match p s with
  | Error => Failure
  | r => r
  end.

Definition map {A B} (p : Parser A) (f : A -> B) : Parser B := fun s =>
  bind (p s) (fun r x => Ok r (f x)).

Definition not {A} (p : Parser A) : Parser unit := fun s =>
  match p s with
  | Ok _ _ => Error
  | Error => Ok s tt
  | Failure => Failure
  end.

(** [context] only decorates the error payload, which is not modelled. *)
Definition context {A} (name : string) (p : Parser A) : Parser A := p.

(** [escaped(normal, control_char, escapable)]: the loop of nom's
    implementation; [acc] is the part of the input consumed so far (the
    Rust code recovers it as [input.take_split(input.offset(&i))]).  Each
    round consumes at least one character, so [length input + 1] rounds
    suffice. *)
Fixpoint escaped_loop {A B} (normal : Parser A) (control_char : ascii)
    (escapable : Parser B) (fuel : nat) (acc i : string) : res string :=
  match fuel with
  | O => Error
  | S fuel' =>
    match i with
    | EmptyString => Ok EmptyString acc
    | String c i' =>
      match normal i with
      | Ok i2 _ =>
          if Nat.eqb (String.length i2) 0 then Ok EmptyString (acc ++ i)
          else if Nat.eqb (String.length i2) (String.length i) then Ok i2 acc
          else escaped_loop normal control_char escapable fuel'
                 (acc ++ substring 0 (String.length i - String.length i2) i) i2
      | Error =>
          if ascii_dec c control_char then
            if Nat.leb (String.length i) 1 then Error
            else
              match escapable i' with
              | Ok i2 _ =>
                  if Nat.eqb (String.length i2) 0 then Ok EmptyString (acc ++ i)
                  else escaped_loop normal control_char escapable fuel'
                         (acc ++ substring 0 (String.length i - String.length i2) i) i2
              | Error => Error
              | Failure => Failure
              end
          else if Nat.eqb (String.length acc) 0 then Error
          else Ok i acc
      | Failure => Failure
      end
    end
  end.

Definition escaped {A B} (normal : Parser A) (control_char : ascii)
    (escapable : Parser B) : Parser string := fun input =>
  escaped_loop normal control_char escapable (S (String.length input)) EmptyString input.

End Nom.
Import Nom.

(** ** The parse tree ([Element], [Block]) *)

Record Block_ (E : Type) : Type := mkBlock {
  inner : list E;
  tag : string;
  value : option string
}.
Arguments mkBlock {E} inner tag value.
Arguments inner {E} b.
Arguments tag {E} b.
Arguments value {E} b.

#[warnings="-register-all"]
Inductive Element : Type :=
| Text (s : string)
| Block (b : Block_ Element)
| EOF.

(** ** The lexical layer *)

(** The characters double quote, backslash, brackets, slash and equals. *)
Definition escaped_str_chars : string := String dq (String bs "[]/=").
(** The escapable characters: the same, plus [n]. *)
Definition escaped_str_escapable : string := String dq (String bs "n[]/=").
(** The special characters plus space, tab, line feed and carriage return. *)
Definition string_without_space_chars : string :=
  String dq (String bs ("[]/= " ++ String "009" (String "010" (String "013" EmptyString)))).

Definition escaped_str : Parser string :=
  escaped (is_not escaped_str_chars) bs (one_of escaped_str_escapable).

Definition string_quoted : Parser string :=
  context "string_quoted"
    (preceded (char dq) (cut (terminated escaped_str (char dq)))).

Definition string_without_space : Parser string :=
  context "string_without_space"
    (preceded multispace0 (is_not string_without_space_chars)).

Definition plain_text : Parser Element :=
  context "plain_text" (map escaped_str (fun s => Text s)).

(** ** Tag heads and tails *)

Definition tag_key : Parser string := context "tag_key" string_without_space.

Definition tag_value : Parser string :=
  context "tag_value" (alt string_without_space string_quoted).

Definition tag_head_keypair : Parser (string * option string) :=
  context "tag_head_keypair"
    (alt
       (map (separated_pair (preceded multispace0 tag_key)
                            (preceded multispace0 (char "="))
                            (preceded multispace0 tag_value))
            (fun '(k, v) => (k, Some v)))
       (map (preceded multispace0 tag_key) (fun s => (s, None)))).

Definition tag_head : Parser (string * option string) :=
  context "tag_head"
    (preceded (tuple2 (char "[") (not (char "/")))
              (cut (terminated tag_head_keypair (preceded multispace0 (char "]"))))).

Definition tag_end : Parser string :=
  context "tag_end"
    (preceded (Nom.tag "[/")
              (cut (terminated tag_value (preceded multispace0 (char "]"))))).

(** The closure of [block]: [Element::Block(Block { inner, tag: key,
    value: value.and_then(|s| Some(s)) })]. *)
Definition block_of (kvi : string * option string * list Element) : Element :=
  let '(key, value, inner) := kvi in
  Block (mkBlock inner key (match value with Some s => Some s | None => None end)).

Definition map_res {A B} (f : A -> B) (r : res A) : res B :=
  match r with
  | Ok rest x => Ok rest (f x)
  | Error => Error
  | Failure => Failure
  end.

(** ** The recursive rules, with a fuel argument

    [element], [closed_tag] and [elements] call each other on the same or
    a shorter input, so they are defined with a fuel argument; [None] means
    that the fuel ran out.  The wrappers below give enough fuel, and
    [element_fuel_enough] and its siblings show that it never runs out. *)

Module Fuel.

Definition lift {A B} (o : option (res A)) (k : string -> A -> option (res B))
  : option (res B) :=
  match o with
  | None => None
  | Some (Ok r x) => k r x
  | Some Error => Some Error
  | Some Failure => Some Failure
  end.

(** [element = alt((map(eof, |_| EOF), plain_text, block))]; [block] is
    [map(closed_tag, block_of)]. *)
Fixpoint element (n : nat) (s : string) {struct n} : option (res Element) :=
  match n with
  | O => None
  | S m =>
    match map eof (fun _ => EOF) s with
    | Error =>
        match plain_text s with
        | Error => option_map (map_res block_of) (closed_tag m s)
        | r => Some r
        end
    | r => Some r
    end
  end

(** [closed_tag = map(verify(tuple((tag_head, elements, tag_end)),
    |((head_key, _), _, end_key)| head_key == end_key), ...)] *)
with closed_tag (n : nat) (s : string) {struct n}
  : option (res (string * option string * list Element)) :=
  match n with
  | O => None
  | S m =>
    match tag_head s with
    | Ok r1 (head_key, value) =>
        lift (elements m r1) (fun r2 inner =>
          Some (match tag_end r2 with
                | Ok r3 end_key =>
                    if string_dec head_key end_key
                    then Ok r3 (head_key, value, inner) else Error
                | Error => Error
                | Failure => Failure
                end))
    | Error => Some Error
    | Failure => Some Failure
    end
  end

(** [elements = many0(element)], with nom's check that every round
    consumes input. *)
with elements (n : nat) (s : string) {struct n} : option (res (list Element)) :=
  match n with
  | O => None
  | S m =>
    match element m s with
    | None => None
    | Some Error => Some (Ok s [])
    | Some Failure => Some Failure
    | Some (Ok s1 o) =>
        if Nat.eqb (String.length s1) (String.length s) then Some Error
        else lift (elements m s1) (fun s2 os => Some (Ok s2 (o :: os)))
    end
  end.

(** [many_till(element, eof)], with nom's check that every round consumes
    input. *)
Fixpoint parse_loop (n : nat) (s : string) : option (res (list Element)) :=
  match n with
  | O => None
  | S m =>
    match eof s with
    | Ok s1 _ => Some (Ok s1 [])
    | Failure => Some Failure
    | Error =>
        match element m s with
        | None => None
        | Some Error => Some Error
        | Some Failure => Some Failure
        | Some (Ok s1 o) =>
            if Nat.eqb (String.length s1) (String.length s) then Some Error
            else lift (parse_loop m s1) (fun s2 os => Some (Ok s2 (o :: os)))
        end
    end
  end.

End Fuel.

Definition fuel (s : string) : nat := 3 * String.length s + 3.

Definition out_of_fuel {A} (o : option (res A)) : res A :=
  match o with Some r => r | None => Failure end.

Definition element (s : string) : res Element := out_of_fuel (Fuel.element (fuel s) s).
Definition closed_tag (s : string) : res (string * option string * list Element) :=
  out_of_fuel (Fuel.closed_tag (fuel s) s).
Definition elements (s : string) : res (list Element) := out_of_fuel (Fuel.elements (fuel s) s).
Definition block (s : string) : res Element := map_res block_of (closed_tag s).

(** [pub fn parse]: [many_till(element, eof)], returning the remaining
    input and the elements. *)
Definition parse (s : string) : res (list Element) := out_of_fuel (Fuel.parse_loop (fuel s) s).

(** ** Notions used to state the properties *)

(** A string between double quotes. *)
Definition quote (x : string) : string := String dq (x ++ String dq EmptyString).

Fixpoint all_chars (f : ascii -> bool) (s : string) : bool :=
  match s with
  | EmptyString => true
  | String c s' => f c && all_chars f s'
  end.

(** A run of whitespace as skipped by [multispace0] (possibly empty). *)
Definition ws_run (w : string) : bool := all_chars is_multispace w.

(** A tag name as [string_without_space] reads it: non-empty, with no
    whitespace and none of the special characters. *)
Definition tag_name_ok (k : string) : bool :=
  match k with
  | EmptyString => false
  | _ => all_chars (fun c => negb (in_chars c string_without_space_chars)) k
  end.

(** Plain text: no unescaped double quote, backslash, bracket, slash or
    equals sign; a backslash is always followed by one of the escapable
    characters, and the pair is kept as it is. *)
Fixpoint plain_ok (s : string) : bool :=
  match s with
  | EmptyString => true
  | String c s' =>
      if ascii_dec c bs then
        match s' with
        | String d s'' => in_chars d escaped_str_escapable && plain_ok s''
        | EmptyString => false
        end
      else negb (in_chars c escaped_str_chars) && plain_ok s'
  end.

(** Whether an element, or one of the children of a block (recursively), is
    the end-of-input sentinel. *)
Fixpoint has_eof (e : Element) : bool :=
  match e with
  | Text _ => false
  | Block b => existsb has_eof (inner b)
  | EOF => true
  end.

(** [reaches s r]: while parsing [s], the element rule is applied to the
    suffix [r]: [r] is [s] itself, or is reached after an element parsed
    at [s] (the loops of [parse] and [elements] go on after it), or is
    reached in the body of a tag whose head was parsed at [s]. *)
Inductive reaches : string -> string -> Prop :=
| reaches_here s : reaches s s
| reaches_after_element s s' o r :
    element s = Ok s' o -> String.length s' < String.length s ->
    reaches s' r -> reaches s r
| reaches_inside_block s s' kv r :
    tag_head s = Ok s' kv -> reaches s' r -> reaches s r.

(** Reconstructing the source text of a tree.  [sep] says which runs may
    stand around the tokens of tag heads and tails: only the empty one for
    the exact tag syntax, or any whitespace run. *)
Section Render.

Variable sep : string -> bool.

Definition head_syntax (k : string) (v : option string) (h : string) : Prop :=
  exists w1 w4, sep w1 = true /\ sep w4 = true /\
  match v with
  | None => h = String "[" (w1 ++ k ++ w4 ++ "]")
  | Some x =>
      exists w2 w3, sep w2 = true /\ sep w3 = true /\
      (h = String "[" (w1 ++ k ++ w2 ++ "=" ++ w3 ++ x ++ w4 ++ "]") \/
       h = String "[" (w1 ++ k ++ w2 ++ "=" ++ w3 ++ quote x ++ w4 ++ "]"))
  end.

Definition tail_syntax (k : string) (t : string) : Prop :=
  exists w1 w2, sep w1 = true /\ sep w2 = true /\
  (t = "[/" ++ w1 ++ k ++ w2 ++ "]" \/ t = "[/" ++ quote k ++ w2 ++ "]").

Inductive renders : list Element -> string -> Prop :=
| renders_nil : renders [] EmptyString
| renders_cons e es p q :
    renders_el e p -> renders es q -> renders (e :: es) (p ++ q)
with renders_el : Element -> string -> Prop :=
| renders_text t : renders_el (Text t) t
| renders_block b h c t :
    head_syntax (tag b) (value b) h -> renders (inner b) c ->
    tail_syntax (tag b) t -> renders_el (Block b) (h ++ c ++ t).

End Render.


(** ** The lexical forms read by the token rules *)

(** Where a run of plain text ends: at the end of the input or at a
    special character other than the backslash. *)
Definition text_stop (r : string) : bool :=
  match r with
  | EmptyString => true
  | String c _ => in_chars c escaped_str_chars && negb (Ascii.eqb c bs)
  end.

(** Where a bare name ends: at the end of the input, at whitespace or at a
    special character. *)
Definition name_stop (r : string) : bool :=
  match r with
  | EmptyString => true
  | String c _ => in_chars c string_without_space_chars
  end.

(** [t] is the source of the value [x] as [tag_value] reads it: a bare
    name after a whitespace run, or a non-empty plain text in quotes. *)
Definition value_src (x t : string) : Prop :=
  (exists w, ws_run w = true /\ tag_name_ok x = true /\ t = w ++ x) \/
  (plain_ok x = true /\ x <> EmptyString /\ t = quote x).

(** [h] is a tag head for the key [k] and the value [v]. *)
Definition head_form (k : string) (v : option string) (h : string) : Prop :=
  exists w1 w4, ws_run w1 = true /\ ws_run w4 = true /\ tag_name_ok k = true /\
  match v with
  | None => h = String "[" (w1 ++ k ++ w4 ++ "]")
  | Some x =>
      exists w2 w3 t, ws_run w2 = true /\ ws_run w3 = true /\ value_src x t /\
      h = String "[" (w1 ++ k ++ w2 ++ "=" ++ w3 ++ t ++ w4 ++ "]")
  end.

(** [t] is a tag tail for the name [e]. *)
Definition tail_form (e t : string) : Prop :=
  exists vs w2, value_src e vs /\ ws_run w2 = true /\ t = "[/" ++ vs ++ w2 ++ "]".

(** A character that stops top-level text without starting a tag: an
    unescaped double quote, closing bracket, slash or equals sign, a
    backslash not followed by an escapable character, or a tag tail. *)
Definition stray (t : string) : bool :=
  match t with
  | EmptyString => false
  | String c r =>
      if ascii_dec c bs then
        match r with
        | EmptyString => true
        | String d _ => negb (in_chars d escaped_str_escapable)
        end
      else if ascii_dec c "[" then String.prefix "/" r
      else in_chars c escaped_str_chars
  end.

(** ** Well-formed trees and their canonical source *)

Definition is_text (e : Element) : bool :=
  match e with Text _ => true | _ => false end.

Fixpoint no_adjacent_text (l : list Element) : bool :=
  match l with
  | e1 :: ((e2 :: _) as l') => negb (is_text e1 && is_text e2) && no_adjacent_text l'
  | _ => true
  end.

Definition value_ok (v : option string) : bool :=
  match v with
  | None => true
  | Some x => negb (String.eqb x EmptyString) && plain_ok x
  end.

(** Texts are non-empty plain text, names are bare names, values are
    non-empty plain text, no two texts are adjacent, no end-of-input
    sentinel; recursively in the children. *)
Fixpoint wf_el (e : Element) : bool :=
  match e with
  | Text t => negb (String.eqb t EmptyString) && plain_ok t
  | Block b =>
      tag_name_ok (tag b) && value_ok (value b) &&
      forallb wf_el (inner b) && no_adjacent_text (inner b)
  | EOF => false
  end.

Definition wf_list (l : list Element) : bool :=
  forallb wf_el l && no_adjacent_text l.

Definition value_source (v : option string) : string :=
  match v with
  | None => EmptyString
  | Some x => "=" ++ quote x
  end.

(** The canonical source of a tree: heads [[k]] or [[k=Qv Q]], tails
    [[/k]], texts as they are. *)
Fixpoint to_source_el (e : Element) : string :=
  match e with
  | Text t => t
  | Block b =>
      String "[" (tag b ++ value_source (value b) ++ "]") ++
      (fix go (l : list Element) : string :=
         match l with
         | [] => EmptyString
         | e :: l' => to_source_el e ++ go l'
         end) (inner b) ++
      "[/" ++ tag b ++ "]"
  | EOF => EmptyString
  end.

Fixpoint to_source (l : list Element) : string :=
  match l with
  | [] => EmptyString
  | e :: l' => to_source_el e ++ to_source l'
  end.

(** ** Basic facts about strings *)

Lemma sapp_assoc (a b c : string) : (a ++ b) ++ c = a ++ (b ++ c).
Proof. induction a as [|x a IH]; simpl; [reflexivity | now rewrite IH]. Qed.

Lemma sapp_nil_r (a : string) : a ++ EmptyString = a.
Proof. induction a as [|x a IH]; simpl; [reflexivity | now rewrite IH]. Qed.

Lemma slength_app (a b : string) :
  String.length (a ++ b) = String.length a + String.length b.
Proof. induction a as [|x a IH]; simpl; [reflexivity | now rewrite IH]. Qed.

Lemma substring_app_l (a b : string) : substring 0 (String.length a) (a ++ b) = a.
Proof.
  induction a as [|x a IH]; simpl; [destruct b; reflexivity | now rewrite IH].
Qed.

Lemma sapp_length_self (w r : string) :
  String.length (w ++ r) = String.length r -> w = EmptyString.
Proof. rewrite slength_app; destruct w; simpl; [reflexivity | lia]. Qed.

Lemma span_until_app (stop : ascii -> bool) (s a b : string) :
  span_until stop s = (a, b) -> s = a ++ b.
Proof.
  revert a b; induction s as [|c s IH]; simpl; intros a b H.
  - now inversion H.
  - destruct (stop c).
    + now inversion H.
    + destruct (span_until stop s) as [a' b'] eqn:E; inversion H; subst.
      simpl; f_equal; now apply IH.
Qed.

(** ** Parsers consume a prefix of their input *)

Definition consumes {A} (p : Parser A) : Prop :=
  forall s r x, p s = Ok r x -> exists w, s = w ++ r.

Create HintDb consumes.

Lemma consumes_char c : consumes (char c).
Proof.
  intros [|d s] r x H; simpl in H; [discriminate|].
  destruct (ascii_dec c d); [|discriminate].
  injection H as <- _; now exists (String d EmptyString).
Qed.

Lemma strip_prefix_app t s r : strip_prefix t s = Some r -> s = t ++ r.
Proof.
  revert s; induction t as [|c t IH]; intros [|d s] H; simpl in H;
    try discriminate; try (now inversion H).
  destruct (ascii_dec c d); [subst; simpl; f_equal; now apply IH | discriminate].
Qed.

Lemma consumes_tag t : consumes (Nom.tag t).
Proof.
  intros s r x H; unfold Nom.tag in H.
  destruct (strip_prefix t s) eqn:E; [|discriminate].
  injection H as <- _; exists t; now apply strip_prefix_app.
Qed.

Lemma consumes_is_not chars : consumes (is_not chars).
Proof.
  intros s r x H; unfold is_not in H.
  destruct (span_until _ s) as [run rest] eqn:E.
  destruct run as [|a run]; [discriminate|]; injection H as <- <-.
  exists (String a run); now apply span_until_app in E.
Qed.

Lemma consumes_multispace0 : consumes multispace0.
Proof.
  intros s r x H; unfold multispace0 in H.
  destruct (span_until _ s) as [run rest] eqn:E; injection H as <- <-.
  exists run; now apply span_until_app in E.
Qed.

Lemma consumes_one_of chars : consumes (one_of chars).
Proof.
  intros [|d s] r x H; simpl in H; [discriminate|].
  destruct (in_chars d chars); [|discriminate].
  injection H as <- _; now exists (String d EmptyString).
Qed.

Lemma consumes_eof : consumes eof.
Proof. intros s r x H; destruct s; simpl in H; inversion H; subst; now exists EmptyString. Qed.

Lemma consumes_preceded {A B} (p : Parser A) (q : Parser B) :
  consumes p -> consumes q -> consumes (preceded p q).
Proof.
  intros Hp Hq s r x H; unfold preceded, bind in H.
  destruct (p s) as [r1 y| |] eqn:E1; try discriminate.
  destruct (Hp _ _ _ E1) as [w1 ->]; destruct (Hq _ _ _ H) as [w2 ->].
  exists (w1 ++ w2); now rewrite sapp_assoc.
Qed.

Lemma consumes_terminated {A B} (p : Parser A) (q : Parser B) :
  consumes p -> consumes q -> consumes (terminated p q).
Proof.
  intros Hp Hq s r x H; unfold terminated, bind in H.
  destruct (p s) as [r1 y| |] eqn:E1; try discriminate.
  destruct (q r1) as [r2 z| |] eqn:E2; inversion H; subst.
  destruct (Hp _ _ _ E1) as [w1 ->]; destruct (Hq _ _ _ E2) as [w2 ->].
  exists (w1 ++ w2); now rewrite sapp_assoc.
Qed.

Lemma consumes_separated_pair {A B C} (p : Parser A) (sep : Parser B) (q : Parser C) :
  consumes p -> consumes sep -> consumes q -> consumes (separated_pair p sep q).
Proof.
  intros Hp Hs Hq s r x H; unfold separated_pair, bind in H.
  destruct (p s) as [r1 y| |] eqn:E1; try discriminate.
  destruct (sep r1) as [r2 z| |] eqn:E2; try discriminate.
  destruct (q r2) as [r3 t| |] eqn:E3; inversion H; subst.
  destruct (Hp _ _ _ E1) as [w1 ->]; destruct (Hs _ _ _ E2) as [w2 ->];
    destruct (Hq _ _ _ E3) as [w3 ->].
  exists (w1 ++ w2 ++ w3); now rewrite !sapp_assoc.
Qed.

Lemma consumes_tuple2 {A B} (p : Parser A) (q : Parser B) :
  consumes p -> consumes q -> consumes (tuple2 p q).
Proof.
  intros Hp Hq s r x H; unfold tuple2, bind in H.
  destruct (p s) as [r1 y| |] eqn:E1; try discriminate.
  destruct (q r1) as [r2 z| |] eqn:E2; inversion H; subst.
  destruct (Hp _ _ _ E1) as [w1 ->]; destruct (Hq _ _ _ E2) as [w2 ->].
  exists (w1 ++ w2); now rewrite sapp_assoc.
Qed.

Lemma consumes_alt {A} (p q : Parser A) : consumes p -> consumes q -> consumes (alt p q).
Proof.
  intros Hp Hq s r x H; unfold alt in H.
  destruct (p s) as [r' y| |] eqn:E; [|eauto|discriminate].
  injection H as <- _; eauto.
Qed.

Lemma consumes_cut {A} (p : Parser A) : consumes p -> consumes (cut p).
Proof.
  intros Hp s r x H; unfold cut in H; destruct (p s) as [r' y| |] eqn:E; try discriminate.
  injection H as <- _; eauto.
Qed.

Lemma consumes_map {A B} (p : Parser A) (f : A -> B) : consumes p -> consumes (map p f).
Proof.
  intros Hp s r x H; unfold map, bind in H.
  destruct (p s) eqn:E; inversion H; subst; eauto.
Qed.

Lemma consumes_not {A} (p : Parser A) : consumes (not p).
Proof.
  intros s r x H; unfold not in H.
  destruct (p s); inversion H; subst; now exists EmptyString.
Qed.

Lemma consumes_context {A} n (p : Parser A) : consumes p -> consumes (context n p).
Proof. now unfold context. Qed.

Lemma escaped_loop_consumes {A B} (normal : Parser A) cc (escapable : Parser B) :
  consumes normal -> consumes escapable ->
  forall f acc i r p, escaped_loop normal cc escapable f acc i = Ok r p ->
  exists w, p = acc ++ w /\ i = w ++ r.
Proof.
  intros Hn He f; induction f as [|f IH]; intros acc i r p H; simpl in H;
    [discriminate|].
  destruct i as [|c i'].
  { injection H as <- <-; exists EmptyString; now rewrite sapp_nil_r. }
  destruct (normal (String c i')) as [i2 y| |] eqn:En.
  - destruct (Hn _ _ _ En) as [w Hw].
    destruct (Nat.eqb_spec (String.length i2) 0) as [Z|NZ].
    { injection H as <- <-. exists (String c i'); now rewrite sapp_nil_r. }
    destruct (Nat.eqb_spec (String.length i2) (String.length (String c i'))) as [L|NL].
    { injection H as <- <-. rewrite Hw in L; symmetry in L.
      apply sapp_length_self in L; subst w.
      exists EmptyString; now rewrite sapp_nil_r. }
    rewrite Hw in H. rewrite slength_app, Nat.add_sub, substring_app_l in H.
    destruct (IH _ _ _ _ H) as [w' [-> ->]].
    exists (w ++ w'); rewrite Hw, !sapp_assoc; split; reflexivity.
  - destruct (ascii_dec c cc) as [Ec|Ec].
    + destruct (Nat.leb (String.length (String c i')) 1); [discriminate|].
      destruct (escapable i') as [i2 y| |] eqn:Ee; try discriminate.
      destruct (He _ _ _ Ee) as [w Hw].
      destruct (Nat.eqb_spec (String.length i2) 0) as [Z|NZ].
      { injection H as <- <-. exists (String c i'); now rewrite sapp_nil_r. }
      rewrite Hw in H.
      change (String c (w ++ i2)) with (String c w ++ i2) in H.
      rewrite slength_app, Nat.add_sub, substring_app_l in H.
      destruct (IH _ _ _ _ H) as [w' [-> ->]].
      exists (String c w ++ w'); rewrite Hw; split; [now rewrite sapp_assoc|].
      now rewrite sapp_assoc.
    + destruct (Nat.eqb (String.length acc) 0); [discriminate|].
      injection H as <- <-.
      exists EmptyString; now rewrite sapp_nil_r.
  - discriminate.
Qed.

Lemma consumes_escaped {A B} (normal : Parser A) cc (escapable : Parser B) :
  consumes normal -> consumes escapable -> consumes (escaped normal cc escapable).
Proof.
  intros Hn He s r x H; unfold escaped in H.
  destruct (escaped_loop_consumes _ _ _ Hn He _ _ _ _ _ H) as [w [_ ->]]; eauto.
Qed.

#[export] Hint Resolve consumes_char consumes_tag consumes_is_not consumes_multispace0
  consumes_one_of consumes_eof consumes_preceded consumes_terminated
  consumes_separated_pair consumes_tuple2 consumes_alt consumes_cut consumes_map
  consumes_not consumes_context consumes_escaped : consumes.

Lemma consumes_escaped_str : consumes escaped_str.
Proof. unfold escaped_str; auto with consumes. Qed.
Lemma consumes_plain_text : consumes plain_text.
Proof. unfold plain_text; auto using consumes_escaped_str with consumes. Qed.
Lemma consumes_string_quoted : consumes string_quoted.
Proof. unfold string_quoted; auto using consumes_escaped_str with consumes. Qed.
Lemma consumes_string_without_space : consumes string_without_space.
Proof. unfold string_without_space; auto with consumes. Qed.
Lemma consumes_tag_value : consumes tag_value.
Proof.
  unfold tag_value, tag_key;
    auto using consumes_string_quoted, consumes_string_without_space with consumes.
Qed.
Lemma consumes_tag_head_keypair : consumes tag_head_keypair.
Proof.
  unfold tag_head_keypair, tag_key;
    auto 10 using consumes_tag_value, consumes_string_without_space with consumes.
Qed.
Lemma consumes_tag_end : consumes tag_end.
Proof. unfold tag_end; auto 10 using consumes_tag_value with consumes. Qed.

Lemma char_ok c s r x : char c s = Ok r x -> s = String c r /\ x = c.
Proof.
  destruct s as [|d s]; simpl; [discriminate|].
  destruct (ascii_dec c d) as [<-|]; [|discriminate].
  intros H; injection H as <- <-; auto.
Qed.

(** A tag head starts with [[] and consumes it. *)
Lemma tag_head_consumes s r x :
  tag_head s = Ok r x -> exists w, s = String "[" (w ++ r).
Proof.
  unfold tag_head, context, preceded, tuple2, bind.
  destruct (char "[" s) as [r1 c| |] eqn:E1; try discriminate.
  apply char_ok in E1 as [-> ->].
  destruct (not (char "/") r1) as [r2 u| |] eqn:E2; try discriminate.
  apply consumes_not in E2 as [w2 ->].
  assert (Hc : consumes (cut (terminated tag_head_keypair (preceded multispace0 (char "]")))))
    by auto 10 using consumes_tag_head_keypair with consumes.
  intros H; destruct (Hc _ _ _ H) as [w ->]; exists (w2 ++ w); now rewrite sapp_assoc.
Qed.

Lemma consumes_length {A} (p : Parser A) s r x :
  consumes p -> p s = Ok r x -> String.length r <= String.length s.
Proof. intros Hp H; destruct (Hp _ _ _ H) as [w ->]; rewrite slength_app; lia. Qed.

Lemma tag_head_length s r x :
  tag_head s = Ok r x -> String.length r < String.length s.
Proof.
  intros H; destruct (tag_head_consumes _ _ _ H) as [w ->]; simpl.
  rewrite slength_app; lia.
Qed.

(** ** Fuel: consumption, monotonicity and adequacy *)

Lemma fuel_consumes : forall n,
  (forall s r o, Fuel.element n s = Some (Ok r o) -> exists w, s = w ++ r) /\
  (forall s r x, Fuel.closed_tag n s = Some (Ok r x) -> exists w, s = w ++ r) /\
  (forall s r os, Fuel.elements n s = Some (Ok r os) -> exists w, s = w ++ r).
Proof.
  induction n as [|n [IH1 [IH2 IH3]]]; [repeat split; discriminate|].
  repeat split.
  - intros s r o H; simpl in H.
    destruct (map eof (fun _ => EOF) s) as [r1 y| |] eqn:E1.
    + injection H as <- _; apply consumes_map in E1; auto with consumes.
    + destruct (plain_text s) as [r1 y| |] eqn:E2.
      * injection H as <- _; now apply consumes_plain_text in E2.
      * destruct (Fuel.closed_tag n s) as [[r1 y| |]|] eqn:E3; try discriminate.
        injection H as <- _; eauto.
      * discriminate.
    + discriminate.
  - intros s r x H; simpl in H.
    destruct (tag_head s) as [r1 [k v]| |] eqn:E1; try discriminate.
    destruct (tag_head_consumes _ _ _ E1) as [w1 ->].
    destruct (Fuel.elements n r1) as [[r2 inner| |]|] eqn:E2; simpl in H; try discriminate.
    destruct (IH3 _ _ _ E2) as [w2 ->].
    destruct (tag_end r2) as [r3 e| |] eqn:E3; try discriminate.
    destruct (string_dec k e); [|discriminate].
    injection H as <- _.
    destruct (consumes_tag_end _ _ _ E3) as [w3 ->].
    exists (String "[" (w1 ++ w2 ++ w3)); simpl; now rewrite !sapp_assoc.
  - intros s r os H; simpl in H.
    destruct (Fuel.element n s) as [[s1 o| |]|] eqn:E1; try discriminate.
    + destruct (Nat.eqb _ _); [discriminate|].
      destruct (Fuel.elements n s1) as [[s2 os'| |]|] eqn:E2; simpl in H; try discriminate.
      injection H as <- _.
      destruct (IH1 _ _ _ E1) as [w1 ->]; destruct (IH3 _ _ _ E2) as [w2 ->].
      exists (w1 ++ w2); now rewrite sapp_assoc.
    + injection H as <- _; now exists EmptyString.
Qed.

Lemma fuel_element_length n s r o :
  Fuel.element n s = Some (Ok r o) -> String.length r <= String.length s.
Proof.
  intros H; destruct (proj1 (fuel_consumes n) _ _ _ H) as [w ->].
  rewrite slength_app; lia.
Qed.

Lemma fuel_mono : forall n,
  (forall m s x, n <= m -> Fuel.element n s = Some x -> Fuel.element m s = Some x) /\
  (forall m s x, n <= m -> Fuel.closed_tag n s = Some x -> Fuel.closed_tag m s = Some x) /\
  (forall m s x, n <= m -> Fuel.elements n s = Some x -> Fuel.elements m s = Some x).
Proof.
  induction n as [|n [IH1 [IH2 IH3]]]; [repeat split; discriminate|].
  repeat split; intros [|m] s x Hle H; try lia; simpl in H |- *.
  - destruct (map eof (fun _ => EOF) s); try exact H.
    destruct (plain_text s); try exact H.
    destruct (Fuel.closed_tag n s) eqn:E; [|discriminate].
    rewrite (IH2 m s _ ltac:(lia) E); exact H.
  - destruct (tag_head s) as [r1 [k v]| |]; try exact H.
    destruct (Fuel.elements n r1) eqn:E; [|discriminate].
    rewrite (IH3 m r1 _ ltac:(lia) E); exact H.
  - destruct (Fuel.element n s) eqn:E; [|discriminate].
    rewrite (IH1 m s _ ltac:(lia) E).
    destruct r as [s1 o| |]; try exact H.
    destruct (Nat.eqb _ _); try exact H.
    destruct (Fuel.elements n s1) eqn:E2; [|discriminate].
    rewrite (IH3 m s1 _ ltac:(lia) E2); exact H.
Qed.

Lemma parse_loop_mono : forall n m s x,
  n <= m -> Fuel.parse_loop n s = Some x -> Fuel.parse_loop m s = Some x.
Proof.
  induction n as [|n IH]; [discriminate|].
  intros [|m] s x Hle H; try lia; simpl in H |- *.
  destruct (eof s); try exact H.
  destruct (Fuel.element n s) eqn:E; [|discriminate].
  rewrite (proj1 (fuel_mono n) m s _ ltac:(lia) E).
  destruct r as [s1 o| |]; try exact H.
  destruct (Nat.eqb _ _); try exact H.
  destruct (Fuel.parse_loop n s1) eqn:E2; [|discriminate].
  rewrite (IH m s1 _ ltac:(lia) E2); exact H.
Qed.

Lemma fuel_enough : forall n,
  (forall s, 3 * String.length s + 1 <= n -> Fuel.element n s <> None) /\
  (forall s, 3 * String.length s <= n -> 1 <= n -> Fuel.closed_tag n s <> None) /\
  (forall s, 3 * String.length s + 2 <= n -> Fuel.elements n s <> None).
Proof.
  induction n as [|n [IH1 [IH2 IH3]]]; [repeat split; intros; lia|].
  repeat split.
  - intros s Hle; simpl.
    destruct (map eof (fun _ => EOF) s) eqn:E; try discriminate.
    destruct (plain_text s); try discriminate.
    destruct s as [|c s']; [discriminate|].
    assert (H := IH2 (String c s') ltac:(simpl in *; lia) ltac:(simpl in *; lia)).
    destruct (Fuel.closed_tag n _); simpl; congruence.
  - intros s Hle _; simpl.
    destruct (tag_head s) as [r1 [k v]| |] eqn:E; try discriminate.
    assert (Hl := tag_head_length _ _ _ E).
    assert (H := IH3 r1 ltac:(lia)).
    destruct (Fuel.elements n r1) as [[r2 inner| |]|]; simpl; congruence.
  - intros s Hle; simpl.
    destruct (Fuel.element n s) as [[s1 o| |]|] eqn:E; try discriminate.
    + destruct (Nat.eqb_spec (String.length s1) (String.length s)); [discriminate|].
      assert (Hl := fuel_element_length _ _ _ _ E).
      assert (H := IH3 s1 ltac:(lia)).
      destruct (Fuel.elements n s1) as [[s2 os| |]|]; simpl; congruence.
    + intros _; exact (IH1 s ltac:(lia) E).
Qed.

Lemma parse_loop_enough : forall n s,
  3 * String.length s + 2 <= n -> Fuel.parse_loop n s <> None.
Proof.
  induction n as [|n IH]; intros s Hle; [lia|]; simpl.
  destruct (eof s) eqn:E0; try discriminate.
  destruct (Fuel.element n s) as [[s1 o| |]|] eqn:E; try discriminate.
  - destruct (Nat.eqb_spec (String.length s1) (String.length s)); [discriminate|].
    assert (Hl := fuel_element_length _ _ _ _ E).
    assert (H := IH s1 ltac:(lia)).
    destruct (Fuel.parse_loop n s1) as [[s2 os| |]|]; simpl; congruence.
  - destruct s as [|c s']; [discriminate|].
    intros _; exact (proj1 (fuel_enough n) (String c s') ltac:(simpl in *; lia) E).
Qed.

(** ** The recursive rules without fuel *)

Lemma element_fuel n s :
  3 * String.length s + 1 <= n -> Fuel.element n s = Some (element s).
Proof.
  intros Hn; unfold element, fuel.
  destruct (Fuel.element (3 * String.length s + 1) s) eqn:E.
  - rewrite (proj1 (fuel_mono (3 * String.length s + 1)) n s _ Hn E).
    now rewrite (proj1 (fuel_mono (3 * String.length s + 1)) (3 * String.length s + 3) s _ ltac:(lia) E).
  - exfalso; exact (proj1 (fuel_enough _) s (le_n _) E).
Qed.

Lemma closed_tag_fuel n s :
  3 * String.length s + 1 <= n -> Fuel.closed_tag n s = Some (closed_tag s).
Proof.
  intros Hn; unfold closed_tag, fuel.
  destruct (Fuel.closed_tag (3 * String.length s + 1) s) eqn:E.
  - rewrite (proj1 (proj2 (fuel_mono (3 * String.length s + 1))) n s _ Hn E).
    now rewrite (proj1 (proj2 (fuel_mono (3 * String.length s + 1))) (3 * String.length s + 3) s _ ltac:(lia) E).
  - exfalso; exact (proj1 (proj2 (fuel_enough (3 * String.length s + 1))) s ltac:(lia) ltac:(lia) E).
Qed.

Lemma elements_fuel n s :
  3 * String.length s + 2 <= n -> Fuel.elements n s = Some (elements s).
Proof.
  intros Hn; unfold elements, fuel.
  destruct (Fuel.elements (3 * String.length s + 2) s) eqn:E.
  - rewrite (proj2 (proj2 (fuel_mono (3 * String.length s + 2))) n s _ Hn E).
    now rewrite (proj2 (proj2 (fuel_mono (3 * String.length s + 2))) (3 * String.length s + 3) s _ ltac:(lia) E).
  - exfalso; exact (proj2 (proj2 (fuel_enough _)) s (le_n _) E).
Qed.

Lemma parse_loop_fuel n s :
  3 * String.length s + 2 <= n -> Fuel.parse_loop n s = Some (parse s).
Proof.
  intros Hn; unfold parse, fuel.
  destruct (Fuel.parse_loop (3 * String.length s + 2) s) eqn:E.
  - rewrite (parse_loop_mono (3 * String.length s + 2) n s _ Hn E).
    now rewrite (parse_loop_mono (3 * String.length s + 2) (3 * String.length s + 3) s _ ltac:(lia) E).
  - exfalso; exact (parse_loop_enough _ s (le_n _) E).
Qed.

Lemma element_length s r o :
  element s = Ok r o -> String.length r <= String.length s.
Proof.
  intros H; apply (fuel_element_length (fuel s) s r o).
  rewrite (element_fuel (fuel s) s) by (unfold fuel; lia); now f_equal.
Qed.

Lemma element_consumes : consumes element.
Proof.
  intros s r o H; apply (proj1 (fuel_consumes (fuel s)) s r o).
  rewrite (element_fuel (fuel s) s) by (unfold fuel; lia); now f_equal.
Qed.

Lemma elements_consumes : consumes elements.
Proof.
  intros s r o H; apply (proj2 (proj2 (fuel_consumes (fuel s))) s r o).
  rewrite (elements_fuel (fuel s) s) by (unfold fuel; lia); now f_equal.
Qed.

Lemma element_eq s :
  element s =
  match map eof (fun _ => EOF) s with
  | Error =>
      match plain_text s with
      | Error => block s
      | r => r
      end
  | r => r
  end.
Proof.
  unfold element at 1, fuel, block.
  replace (3 * String.length s + 3) with (S (3 * String.length s + 2)) by lia.
  cbn [Fuel.element].
  destruct (map eof (fun _ => EOF) s); try reflexivity.
  destruct (plain_text s); try reflexivity.
  rewrite closed_tag_fuel by lia; reflexivity.
Qed.

Lemma closed_tag_eq s :
  closed_tag s =
  match tag_head s with
  | Ok r1 (head_key, value) =>
      bind (elements r1) (fun r2 inner =>
        match tag_end r2 with
        | Ok r3 end_key =>
            if string_dec head_key end_key then Ok r3 (head_key, value, inner) else Error
        | Error => Error
        | Failure => Failure
        end)
  | Error => Error
  | Failure => Failure
  end.
Proof.
  unfold closed_tag at 1, fuel.
  replace (3 * String.length s + 3) with (S (3 * String.length s + 2)) by lia.
  cbn [Fuel.closed_tag].
  destruct (tag_head s) as [r1 [k v]| |] eqn:E; try reflexivity.
  assert (Hl := tag_head_length _ _ _ E).
  rewrite elements_fuel by lia; simpl.
  destruct (elements r1); reflexivity.
Qed.

Lemma elements_eq s :
  elements s =
  match element s with
  | Error => Ok s []
  | Failure => Failure
  | Ok s1 o =>
      if Nat.eqb (String.length s1) (String.length s) then Error
      else bind (elements s1) (fun s2 os => Ok s2 (o :: os))
  end.
Proof.
  unfold elements at 1, fuel.
  replace (3 * String.length s + 3) with (S (3 * String.length s + 2)) by lia.
  cbn [Fuel.elements].
  rewrite element_fuel by lia.
  destruct (element s) as [s1 o| |] eqn:E; try reflexivity.
  destruct (Nat.eqb _ _); [reflexivity|].
  assert (Hl := element_length _ _ _ E).
  rewrite elements_fuel by lia; simpl.
  destruct (elements s1); reflexivity.
Qed.

Lemma parse_eq s :
  parse s =
  match eof s with
  | Ok s1 _ => Ok s1 []
  | Failure => Failure
  | Error =>
      match element s with
      | Error => Error
      | Failure => Failure
      | Ok s1 o =>
          if Nat.eqb (String.length s1) (String.length s) then Error
          else bind (parse s1) (fun s2 os => Ok s2 (o :: os))
      end
  end.
Proof.
  unfold parse at 1, fuel.
  replace (3 * String.length s + 3) with (S (3 * String.length s + 2)) by lia.
  cbn [Fuel.parse_loop].
  destruct (eof s); try reflexivity.
  rewrite element_fuel by lia.
  destruct (element s) as [s1 o| |] eqn:E; try reflexivity.
  destruct (Nat.eqb _ _); [reflexivity|].
  assert (Hl := element_length _ _ _ E).
  rewrite parse_loop_fuel by lia; simpl.
  destruct (parse s1); reflexivity.
Qed.

(** ** Tokens read by the lexical rules *)

Lemma span_until_all stop s a b :
  span_until stop s = (a, b) -> all_chars (fun c => negb (stop c)) a = true.
Proof.
  revert a b; induction s as [|c s IH]; simpl; intros a b H.
  - now inversion H.
  - destruct (stop c) eqn:Ec.
    + now inversion H.
    + destruct (span_until stop s) as [a' b'] eqn:E; injection H as <- <-.
      simpl; rewrite Ec; simpl; exact (IH _ _ eq_refl).
Qed.

Lemma all_chars_ext f g s : (forall c, f c = g c) -> all_chars f s = all_chars g s.
Proof. intros H; induction s as [|c s IH]; simpl; [reflexivity|now rewrite H, IH]. Qed.

Lemma is_not_ok chars s r x :
  is_not chars s = Ok r x ->
  s = x ++ r /\ x <> EmptyString /\
  all_chars (fun c => negb (in_chars c chars)) x = true.
Proof.
  unfold is_not; destruct (span_until _ s) as [run rest] eqn:E.
  destruct run as [|a run]; [discriminate|]; intros H; injection H as <- <-.
  split; [now apply span_until_app in E|]; split; [discriminate|].
  now apply span_until_all in E.
Qed.

Lemma multispace0_ok s r w : multispace0 s = Ok r w -> s = w ++ r /\ ws_run w = true.
Proof.
  unfold multispace0; destruct (span_until _ s) as [run rest] eqn:E.
  intros H; injection H as <- <-; split; [now apply span_until_app in E|].
  apply span_until_all in E; unfold ws_run; rewrite <- E.
  apply all_chars_ext; intros c; now rewrite negb_involutive.
Qed.

Lemma string_without_space_ok s r x :
  string_without_space s = Ok r x ->
  exists w, s = w ++ x ++ r /\ ws_run w = true /\ tag_name_ok x = true.
Proof.
  unfold string_without_space, context, preceded, bind.
  destruct (multispace0 s) as [r1 w| |] eqn:E1; try discriminate.
  apply multispace0_ok in E1 as [-> Hw].
  intros H; apply is_not_ok in H as [-> [Hne Hall]].
  exists w; split; [reflexivity|]; split; [exact Hw|].
  unfold tag_name_ok; destruct x; [contradiction|exact Hall].
Qed.

Lemma ws_run_app a b : ws_run (a ++ b) = ws_run a && ws_run b.
Proof. unfold ws_run; induction a as [|c a IH]; simpl; [reflexivity|now rewrite IH, andb_assoc]. Qed.

(** Inversion lemmas for the combinators. *)

Lemma alt_ok {A} (p q : Parser A) s r x :
  alt p q s = Ok r x -> p s = Ok r x \/ q s = Ok r x.
Proof. unfold alt; destruct (p s); auto; discriminate. Qed.

Lemma map_ok {A B} (p : Parser A) (f : A -> B) s r y :
  map p f s = Ok r y -> exists x, p s = Ok r x /\ y = f x.
Proof.
  unfold map, bind; destruct (p s) as [r1 x| |] eqn:E1; try discriminate.
  intros H; injection H as <- <-; eauto.
Qed.

Lemma preceded_ok {A B} (p : Parser A) (q : Parser B) s r x :
  preceded p q s = Ok r x -> exists r1 y, p s = Ok r1 y /\ q r1 = Ok r x.
Proof. unfold preceded, bind; destruct (p s) as [r1 y| |] eqn:E1; eauto; discriminate. Qed.

Lemma terminated_ok {A B} (p : Parser A) (q : Parser B) s r x :
  terminated p q s = Ok r x -> exists r1 y, p s = Ok r1 x /\ q r1 = Ok r y.
Proof.
  unfold terminated, bind; destruct (p s) as [r1 y| |] eqn:E1; try discriminate.
  destruct (q r1) as [r2 z| |] eqn:E; try discriminate.
  intros H; injection H as <- <-; eauto.
Qed.

Lemma separated_pair_ok {A B C} (p : Parser A) (sep : Parser B) (q : Parser C) s r x z :
  separated_pair p sep q s = Ok r (x, z) ->
  exists r1 r2 u, p s = Ok r1 x /\ sep r1 = Ok r2 u /\ q r2 = Ok r z.
Proof.
  unfold separated_pair, bind; destruct (p s) as [r1 x'| |] eqn:E1; try discriminate.
  destruct (sep r1) as [r2 u| |] eqn:E2; try discriminate.
  destruct (q r2) as [r3 z'| |] eqn:E; try discriminate.
  intros H; injection H; intros; subst; do 3 eexists; eauto.
Qed.

Lemma cut_ok {A} (p : Parser A) s r x : cut p s = Ok r x -> p s = Ok r x.
Proof. unfold cut; destruct (p s); congruence. Qed.

Lemma escaped_str_ok s r x : escaped_str s = Ok r x -> s = x ++ r.
Proof.
  unfold escaped_str, escaped; intros H.
  destruct (escaped_loop_consumes _ _ _ (consumes_is_not _) (consumes_one_of _) _ _ _ _ _ H)
    as [w [-> ->]]; reflexivity.
Qed.

Lemma string_quoted_ok s r x : string_quoted s = Ok r x -> s = quote x ++ r.
Proof.
  unfold string_quoted, context; intros H.
  apply preceded_ok in H as [r1 [c [H1 H2]]]; apply char_ok in H1 as [-> _].
  apply cut_ok, terminated_ok in H2 as [r2 [d [H2 H3]]].
  apply escaped_str_ok in H2 as ->; apply char_ok in H3 as [-> _].
  unfold quote; simpl; now rewrite sapp_assoc.
Qed.

Lemma tag_value_ok s r x :
  tag_value s = Ok r x ->
  (exists w, s = w ++ x ++ r /\ ws_run w = true) \/ s = quote x ++ r.
Proof.
  unfold tag_value, context; intros H; apply alt_ok in H as [H|H].
  - apply string_without_space_ok in H as [w [-> [Hw _]]]; left; eauto.
  - right; now apply string_quoted_ok.
Qed.

Lemma tag_head_keypair_ok s r k v :
  tag_head_keypair s = Ok r (k, v) ->
  exists w1, ws_run w1 = true /\ tag_name_ok k = true /\
  match v with
  | None => s = w1 ++ k ++ r
  | Some x =>
      exists w2 w3, ws_run w2 = true /\ ws_run w3 = true /\
      (s = w1 ++ k ++ w2 ++ "=" ++ w3 ++ x ++ r \/
       s = w1 ++ k ++ w2 ++ "=" ++ w3 ++ quote x ++ r)
  end.
Proof.
  unfold tag_head_keypair, context, tag_key, context; intros H.
  apply alt_ok in H as [H|H];
    [apply map_ok in H as [[k' v'] [H Heq]] | apply map_ok in H as [k' [H Heq]]].
  - simpl in Heq; injection Heq as -> ->.
    apply separated_pair_ok in H as [r1 [r2 [u [H1 [H2 H3]]]]].
    apply preceded_ok in H1 as [r1' [w1 [M1 K]]]; apply multispace0_ok in M1 as [-> Hw1].
    apply string_without_space_ok in K as [w1' [-> [Hw1' Hk]]].
    apply preceded_ok in H2 as [r2' [w2 [M2 E]]]; apply multispace0_ok in M2 as [-> Hw2].
    apply char_ok in E as [-> _].
    apply preceded_ok in H3 as [r3' [w3 [M3 V]]]; apply multispace0_ok in M3 as [-> Hw3].
    exists (w1 ++ w1'); split; [rewrite ws_run_app, Hw1, Hw1'; reflexivity|].
    split; [exact Hk|].
    apply tag_value_ok in V as [[w3' [-> Hw3']]| ->].
    + exists w2, (w3 ++ w3'); split; [exact Hw2|]; split; [rewrite ws_run_app, Hw3, Hw3'; reflexivity|].
      left; now rewrite !sapp_assoc.
    + exists w2, w3; split; [exact Hw2|]; split; [exact Hw3|].
      right; now rewrite !sapp_assoc.
  - simpl in Heq; injection Heq as -> ->.
    apply preceded_ok in H as [r1' [w1 [M1 K]]]; apply multispace0_ok in M1 as [-> Hw1].
    apply string_without_space_ok in K as [w1' [-> [Hw1' Hk]]].
    exists (w1 ++ w1'); split; [rewrite ws_run_app, Hw1, Hw1'; reflexivity|].
    split; [exact Hk|]; now rewrite !sapp_assoc.
Qed.

Lemma tag_head_ok s r kv :
  tag_head s = Ok r kv ->
  exists r1 w, s = String "[" r1 /\ tag_head_keypair r1 = Ok (w ++ String "]" r) kv /\
  ws_run w = true.
Proof.
  unfold tag_head, context; intros H.
  apply preceded_ok in H as [r1 [u [T H]]].
  unfold tuple2, bind in T.
  destruct (char "[" s) as [r0 c| |] eqn:E0; try discriminate.
  apply char_ok in E0 as [-> _].
  destruct (not (char "/") r0) as [r0' u'| |] eqn:E1; try discriminate.
  injection T as <- _.
  assert (r0' = r0) as ->.
  { unfold not in E1; destruct (char "/" r0); congruence. }
  apply cut_ok, terminated_ok in H as [r2 [y [K H]]].
  apply preceded_ok in H as [r3 [w [M C]]]; apply multispace0_ok in M as [-> Hw].
  apply char_ok in C as [-> _].
  exists r0, w; auto.
Qed.

Lemma tag_end_ok s r e :
  tag_end s = Ok r e ->
  exists w1 w2, ws_run w1 = true /\ ws_run w2 = true /\
  (s = "[/" ++ w1 ++ e ++ w2 ++ String "]" r \/ s = "[/" ++ quote e ++ w2 ++ String "]" r).
Proof.
  unfold tag_end, context; intros H.
  apply preceded_ok in H as [r1 [t [T H]]].
  unfold Nom.tag in T; destruct (strip_prefix "[/" s) eqn:E; [|discriminate].
  injection T as <- _; apply strip_prefix_app in E as ->.
  apply cut_ok, terminated_ok in H as [r2 [y [V H]]].
  apply preceded_ok in H as [r3 [w2 [M C]]]; apply multispace0_ok in M as [-> Hw2].
  apply char_ok in C as [-> _].
  apply tag_value_ok in V as [[w1 [-> Hw1]]| ->].
  - exists w1, w2; split; [exact Hw1|]; split; [exact Hw2|].
    left; now rewrite ?sapp_assoc.
  - exists EmptyString, w2; split; [reflexivity|]; split; [exact Hw2|].
    right; now rewrite ?sapp_assoc.
Qed.

Lemma tag_head_key_ok s r k v :
  tag_head s = Ok r (k, v) -> tag_name_ok k = true.
Proof.
  intros H; apply tag_head_ok in H as [r1 [w [_ [H _]]]].
  apply tag_head_keypair_ok in H as [w1 [_ [Hk _]]]; exact Hk.
Qed.

(** ** The end-of-input sentinel only comes from an empty input *)

Lemma fuel_no_eof : forall n,
  (forall s r o, Fuel.element n s = Some (Ok r o) ->
     (o = EOF /\ r = s) \/ has_eof o = false) /\
  (forall s r k v inner, Fuel.closed_tag n s = Some (Ok r (k, v, inner)) ->
     existsb has_eof inner = false) /\
  (forall s r os, Fuel.elements n s = Some (Ok r os) -> existsb has_eof os = false).
Proof.
  induction n as [|n [IH1 [IH2 IH3]]]; [repeat split; discriminate|].
  repeat split.
  - intros s r o H; simpl in H.
    destruct s as [|c s'].
    + simpl in H; injection H as <- <-; left; auto.
    + cbn [map bind eof] in H.
      destruct (plain_text (String c s')) as [r1 y| |] eqn:E2.
      * injection H as <- <-; apply map_ok in E2 as [t [_ ->]]; right; reflexivity.
      * destruct (Fuel.closed_tag n (String c s')) as [[r1 [[k v] inner]| |]|] eqn:E3;
          try discriminate.
        injection H as <- <-; right; simpl; exact (IH2 _ _ _ _ _ E3).
      * discriminate.
  - intros s r k v inner H; simpl in H.
    destruct (tag_head s) as [r1 [k' v']| |]; try discriminate.
    destruct (Fuel.elements n r1) as [[r2 inner'| |]|] eqn:E2; simpl in H; try discriminate.
    destruct (tag_end r2) as [r3 e| |]; try discriminate.
    destruct (string_dec k' e); [|discriminate].
    injection H as _ _ _ <-; exact (IH3 _ _ _ E2).
  - intros s r os H; simpl in H.
    destruct (Fuel.element n s) as [[s1 o| |]|] eqn:E1; try discriminate.
    + destruct (Nat.eqb_spec (String.length s1) (String.length s)) as [L|L]; [discriminate|].
      destruct (Fuel.elements n s1) as [[s2 os'| |]|] eqn:E2; simpl in H; try discriminate.
      injection H as _ <-; simpl.
      destruct (IH1 _ _ _ E1) as [[_ ->] | ->]; [contradiction|].
      exact (IH3 _ _ _ E2).
    + injection H as _ <-; reflexivity.
Qed.

Lemma parse_loop_no_eof : forall n s r es,
  Fuel.parse_loop n s = Some (Ok r es) -> existsb has_eof es = false.
Proof.
  induction n as [|n IH]; intros s r es H; [discriminate|]; simpl in H.
  destruct (eof s); [injection H as _ <-; reflexivity| |discriminate].
  destruct (Fuel.element n s) as [[s1 o| |]|] eqn:E1; try discriminate.
  destruct (Nat.eqb_spec (String.length s1) (String.length s)) as [L|L]; [discriminate|].
  destruct (Fuel.parse_loop n s1) as [[s2 es'| |]|] eqn:E2; simpl in H; try discriminate.
  injection H as _ <-; simpl.
  destruct (proj1 (fuel_no_eof n) _ _ _ E1) as [[_ ->] | ->]; [contradiction|].
  exact (IH _ _ _ E2).
Qed.

(** ** Plain text is read as one span *)

Lemma in_chars_bs_special : in_chars bs escaped_str_chars = true.
Proof. reflexivity. Qed.

Lemma plain_ok_app a b :
  all_chars (fun c => negb (in_chars c escaped_str_chars)) a = true ->
  plain_ok (a ++ b) = plain_ok b.
Proof.
  induction a as [|c a IH]; simpl; [reflexivity|].
  intros H; apply andb_prop in H as [Hc Ha].
  destruct (ascii_dec c bs) as [->|Hne]; [exfalso; vm_compute in Hc; discriminate|].
  rewrite Hc; simpl; exact (IH Ha).
Qed.

Lemma escaped_loop_plain : forall f acc i,
  plain_ok i = true -> String.length i < f ->
  escaped_loop (is_not escaped_str_chars) bs (one_of escaped_str_escapable) f acc i =
  Ok EmptyString (acc ++ i).
Proof.
  induction f as [|f IH]; intros acc i Hp Hl; [lia|].
  destruct i as [|c i']; [cbn; now rewrite sapp_nil_r|].
  cbn [escaped_loop].
  destruct (in_chars c escaped_str_chars) eqn:Ec.
  - assert (En : is_not escaped_str_chars (String c i') = Error)
      by (unfold is_not; cbn [span_until]; rewrite Ec; reflexivity).
    rewrite En.
    cbn [plain_ok] in Hp; destruct (ascii_dec c bs) as [->|Hne];
      [|rewrite Ec in Hp; discriminate].
    destruct (ascii_dec bs bs) as [_|]; [|contradiction].
    destruct i' as [|d i'']; [discriminate|].
    apply andb_prop in Hp as [Hd Hp].
    simpl (Nat.leb _ _); cbn [one_of]; rewrite Hd.
    destruct (Nat.eqb_spec (String.length i'') 0) as [Z|NZ].
    + reflexivity.
    + change (String bs (String d i'')) with (String bs (String d EmptyString) ++ i'').
      rewrite slength_app, Nat.add_sub, substring_app_l.
      rewrite IH by (exact Hp || (simpl in Hl; lia)).
      now rewrite sapp_assoc.
  - destruct (span_until (fun c => in_chars c escaped_str_chars) i') as [a b] eqn:Es.
    assert (En : is_not escaped_str_chars (String c i') = Ok b (String c a))
      by (unfold is_not; cbn [span_until]; rewrite Ec, Es; reflexivity).
    rewrite En.
    assert (Hi := span_until_app _ _ _ _ Es).
    assert (Ha := span_until_all _ _ _ _ Es).
    assert (Hb : plain_ok b = true).
    { cbn [plain_ok] in Hp; destruct (ascii_dec c bs) as [->|];
        [rewrite in_chars_bs_special in Ec; discriminate|].
      rewrite Ec in Hp; cbn [plain_ok] in Hp; rewrite Hi, plain_ok_app in Hp; [exact Hp|].
      rewrite <- Ha; apply all_chars_ext; reflexivity. }
    destruct (Nat.eqb_spec (String.length b) 0) as [Z|NZ]; [reflexivity|].
    destruct (Nat.eqb_spec (String.length b) (String.length (String c i'))) as [L|NL].
    { exfalso; rewrite Hi in L; simpl in L; rewrite slength_app in L; lia. }
    rewrite Hi; change (String c (a ++ b)) with (String c a ++ b).
    rewrite slength_app, Nat.add_sub, substring_app_l.
    rewrite IH by (exact Hb || (simpl in Hl; rewrite Hi, slength_app in Hl; lia)).
    now rewrite sapp_assoc.
Qed.

Lemma plain_text_plain s :
  plain_ok s = true -> plain_text s = Ok EmptyString (Text s).
Proof.
  intros Hp; unfold plain_text, context, map, escaped_str, escaped.
  rewrite escaped_loop_plain by (auto; lia); reflexivity.
Qed.

(** ** Failures of the element rule at a tag *)

Lemma plain_text_bracket t : plain_text (String "[" t) = Error.
Proof. reflexivity. Qed.

Lemma element_at_bracket t :
  element (String "[" t) = block (String "[" t).
Proof. rewrite element_eq; reflexivity. Qed.

Lemma element_eof_only_empty s r : element s = Ok r EOF -> r = s.
Proof.
  intros H; rewrite element_eq in H.
  destruct s as [|c s']; [now injection H as <-|].
  cbn [map bind eof] in H.
  destruct (plain_text (String c s')) as [r1 y| |] eqn:E; try discriminate.
  - injection H as <- Hy; apply map_ok in E as [t [_ ->]]; discriminate.
  - unfold block, map_res in H.
    destruct (closed_tag (String c s')) as [r1 [[k v] i]| |]; discriminate.
Qed.

(** A fatal failure of the element rule at a position the parser reaches
    is the result of the whole parse. *)
Lemma fatal_element_propagates s r :
  reaches s r -> element r = Failure -> elements s = Failure /\ parse s = Failure.
Proof.
  assert (Here : forall s, element s = Failure -> elements s = Failure /\ parse s = Failure).
  { intros s0 H; rewrite elements_eq, parse_eq, H; split; [reflexivity|].
    destruct s0; [rewrite element_eq in H; discriminate | reflexivity]. }
  induction 1 as [s|s s' o r E L R IH|s s' [k v] r E R IH]; intros F.
  - now apply Here.
  - destruct (IH F) as [IH1 IH2].
    rewrite elements_eq, parse_eq, E.
    destruct (Nat.eqb_spec (String.length s') (String.length s)) as [Z|NZ]; [lia|].
    rewrite IH1, IH2; split; [reflexivity|].
    destruct s; [simpl in L; lia | reflexivity].
  - apply Here.
    destruct (tag_head_ok _ _ _ E) as [r1 [w [-> _]]].
    rewrite element_at_bracket; unfold block; rewrite closed_tag_eq, E.
    destruct (IH F) as [-> _]; reflexivity.
Qed.

(** After a [[] that is not followed by a slash, the tag head either
    succeeds or fails fatally. *)
Lemma tag_head_committed rest :
  (forall t, rest <> String "/" t) -> tag_head (String "[" rest) <> Error.
Proof.
  intros Hs; unfold tag_head, context, preceded, tuple2, bind; cbn [char].
  destruct (ascii_dec "[" "[") as [_|]; [|contradiction].
  assert (Hn : not (char "/") rest = Ok rest tt).
  { unfold not; destruct rest as [|c t]; [reflexivity|]; cbn [char].
    destruct (ascii_dec "/" c) as [<-|]; [now destruct (Hs t)|reflexivity]. }
  rewrite Hn; unfold cut.
  destruct (terminated _ _ rest); discriminate.
Qed.

Lemma multispace_special c :
  is_multispace c = true -> in_chars c string_without_space_chars = true.
Proof.
  unfold is_multispace; cbn [in_chars].
  destruct (ascii_dec c " ") as [->|]; [reflexivity|].
  destruct (ascii_dec c "009") as [->|]; [reflexivity|].
  destruct (ascii_dec c "013") as [->|]; [reflexivity|].
  destruct (ascii_dec c "010") as [->|]; [reflexivity|].
  discriminate.
Qed.

Lemma span_until_app_stop stop w t :
  all_chars (fun c => negb (stop c)) w = true ->
  match t with String c _ => stop c | EmptyString => true end = true ->
  span_until stop (w ++ t) = (w, t).
Proof.
  intros Hw Ht; induction w as [|c w IH]; simpl.
  - destruct t as [|c t]; [reflexivity|]; simpl; now rewrite Ht.
  - simpl in Hw; apply andb_prop in Hw as [Hc Hw].
    destruct (stop c); [discriminate|]; now rewrite IH.
Qed.

Lemma multispace0_app w t :
  ws_run w = true ->
  match t with String c _ => negb (is_multispace c) | EmptyString => true end = true ->
  multispace0 (w ++ t) = Ok t w.
Proof.
  intros Hw Ht; unfold multispace0; rewrite span_until_app_stop; [reflexivity| |exact Ht].
  unfold ws_run in Hw; rewrite <- Hw; apply all_chars_ext; intros c.
  now rewrite negb_involutive.
Qed.

Lemma multispace0_stop t :
  match t with String c _ => negb (is_multispace c) | EmptyString => true end = true ->
  multispace0 t = Ok t EmptyString.
Proof. intros Ht; exact (multispace0_app EmptyString t eq_refl Ht). Qed.

Lemma is_not_app chars w t :
  w <> EmptyString ->
  all_chars (fun c => negb (in_chars c chars)) w = true ->
  match t with String c _ => in_chars c chars | EmptyString => true end = true ->
  is_not chars (w ++ t) = Ok t w.
Proof.
  intros Hne Hw Ht; unfold is_not; rewrite span_until_app_stop by assumption.
  destruct w; [contradiction|reflexivity].
Qed.

Lemma tag_value_empty_quotes rest :
  tag_value (String dq (String dq rest)) = Failure.
Proof. reflexivity. Qed.

(** A tag head whose value is an empty pair of quotes fails fatally. *)
Lemma tag_head_empty_quoted_value w1 key w2 w3 rest :
  ws_run w1 = true -> tag_name_ok key = true -> ws_run w2 = true -> ws_run w3 = true ->
  tag_head (String "[" (w1 ++ key ++ w2 ++ "=" ++ w3 ++ String dq (String dq rest))) =
  Failure.
Proof.
  intros H1 Hk H2 H3.
  destruct key as [|k0 key']; [discriminate|].
  assert (Hk0 : in_chars k0 string_without_space_chars = false).
  { cbn [tag_name_ok all_chars] in Hk; apply andb_prop in Hk as [Hk0 _].
    now destruct (in_chars k0 string_without_space_chars). }
  assert (Hk0ws : is_multispace k0 = false).
  { destruct (is_multispace k0) eqn:E; [|reflexivity].
    apply multispace_special in E; congruence. }
  set (Z := String dq (String dq rest)).
  assert (Hnot : forall t, w1 ++ String k0 key' ++ w2 ++ "=" ++ w3 ++ Z <> String "/" t).
  { intros t; destruct w1 as [|c w1'].
    - simpl; intros E; injection E as -> _; discriminate.
    - simpl; intros E; injection E as -> _.
      unfold ws_run in H1; simpl in H1; discriminate. }
  destruct (tag_head (String "[" _)) eqn:E; [| |reflexivity].
  2: { exfalso; exact (tag_head_committed _ Hnot E). }
  exfalso.
  unfold tag_head, context, preceded, tuple2, bind in E; cbn [char] in E.
  destruct (ascii_dec "[" "[") as [_|]; [|contradiction].
  destruct (not (char "/") _) as [r0 u| |] eqn:En; try discriminate.
  assert (r0 = w1 ++ String k0 key' ++ w2 ++ "=" ++ w3 ++ Z) as ->.
  { unfold not in En; destruct (char "/" _); congruence. }
  unfold cut, terminated, bind in E.
  assert (Hkp : tag_head_keypair (w1 ++ String k0 key' ++ w2 ++ "=" ++ w3 ++ Z) = Failure).
  { unfold tag_head_keypair, context, alt, map, separated_pair, preceded, bind.
    rewrite multispace0_app by (simpl; rewrite ?Hk0ws; reflexivity || exact H1).
    unfold tag_key, context, string_without_space, context, preceded, bind.
    rewrite (multispace0_stop (String k0 key' ++ w2 ++ "=" ++ w3 ++ Z))
      by (cbn [append]; now rewrite Hk0ws).
    rewrite is_not_app; [|discriminate|exact Hk|].
    2: { destruct w2 as [|c w2']; [reflexivity|].
         unfold ws_run in H2; simpl in H2; apply andb_prop in H2 as [Hc _].
         now apply multispace_special. }
    rewrite multispace0_app by (reflexivity || exact H2).
    assert (Ce : char "=" ("=" ++ w3 ++ Z) = Ok (w3 ++ Z) "="%char).
    { cbn [append char]; destruct (ascii_dec "=" "=") as [_|]; [reflexivity|contradiction]. }
    rewrite Ce, multispace0_app by (reflexivity || exact H3).
    unfold Z; rewrite tag_value_empty_quotes; reflexivity. }
  rewrite Hkp in E; discriminate.
Qed.

Lemma element_head_failure rest :
  tag_head (String "[" rest) = Failure -> element (String "[" rest) = Failure.
Proof.
  intros H; rewrite element_at_bracket; unfold block; rewrite closed_tag_eq, H.
  reflexivity.
Qed.

Lemma parse_at_bracket rest :
  parse (String "[" rest) =
  match block (String "[" rest) with
  | Error => Error
  | Failure => Failure
  | Ok s1 o =>
      if Nat.eqb (String.length s1) (String.length (String "[" rest)) then Error
      else bind (parse s1) (fun s2 os => Ok s2 (o :: os))
  end.
Proof. rewrite parse_eq, element_at_bracket; reflexivity. Qed.

(** ** Reconstructing the input from the parse tree *)

Ltac str_eq := repeat progress (simpl; rewrite ?sapp_assoc); reflexivity.

Lemma tag_head_syntax s r k v :
  tag_head s = Ok r (k, v) -> exists h, s = h ++ r /\ head_syntax ws_run k v h.
Proof.
  intros H; destruct (tag_head_ok _ _ _ H) as [r1 [w [-> [Hk Hw]]]].
  destruct (tag_head_keypair_ok _ _ _ _ Hk) as [w1 [H1 [_ Hv]]].
  destruct v as [x|].
  - destruct Hv as [w2 [w3 [H2 [H3 [E|E]]]]].
    + exists (String "[" (w1 ++ k ++ w2 ++ "=" ++ w3 ++ x ++ w ++ "]")); split.
      * rewrite E; str_eq.
      * exists w1, w; split; [exact H1|]; split; [exact Hw|].
        exists w2, w3; auto.
    + exists (String "[" (w1 ++ k ++ w2 ++ "=" ++ w3 ++ quote x ++ w ++ "]")); split.
      * rewrite E; str_eq.
      * exists w1, w; split; [exact H1|]; split; [exact Hw|].
        exists w2, w3; auto.
  - exists (String "[" (w1 ++ k ++ w ++ "]")); split.
    + rewrite Hv; str_eq.
    + exists w1, w; auto.
Qed.

Lemma tag_end_syntax s r e :
  tag_end s = Ok r e -> exists t, s = t ++ r /\ tail_syntax ws_run e t.
Proof.
  intros H; destruct (tag_end_ok _ _ _ H) as [w1 [w2 [H1 [H2 [->| ->]]]]].
  - exists ("[/" ++ w1 ++ e ++ w2 ++ "]"); split; [str_eq|].
    exists w1, w2; auto.
  - exists ("[/" ++ quote e ++ w2 ++ "]"); split; [str_eq|].
    exists w1, w2; auto.
Qed.

Lemma renders_sound n : forall s, String.length s = n ->
  (forall r k v inner, closed_tag s = Ok r (k, v, inner) ->
     exists h c t, s = h ++ c ++ t ++ r /\ head_syntax ws_run k v h /\
     renders ws_run inner c /\ tail_syntax ws_run k t) /\
  (forall r o, element s = Ok r o ->
     o = EOF \/ exists p, s = p ++ r /\ renders_el ws_run o p) /\
  (forall r es, elements s = Ok r es -> exists p, s = p ++ r /\ renders ws_run es p).
Proof.
  induction n as [n IH] using (well_founded_induction lt_wf); intros s Hn.
  assert (Ct : forall r k v inner, closed_tag s = Ok r (k, v, inner) ->
     exists h c t, s = h ++ c ++ t ++ r /\ head_syntax ws_run k v h /\
     renders ws_run inner c /\ tail_syntax ws_run k t).
  { intros r k v inner H; rewrite closed_tag_eq in H.
    destruct (tag_head s) as [r1 [hk hv]| |] eqn:Eh; try discriminate.
    destruct (elements r1) as [r2 i| |] eqn:Ei; try discriminate; cbn [bind] in H.
    destruct (tag_end r2) as [r3 e| |] eqn:Ee; try discriminate.
    destruct (string_dec hk e) as [<-|]; [|discriminate].
    injection H as <- <- <- <-.
    destruct (tag_head_syntax _ _ _ _ Eh) as [h [-> Hh]].
    assert (Hl := tag_head_length _ _ _ Eh).
    destruct (IH (String.length r1) ltac:(lia) r1 eq_refl) as [_ [_ IHe]].
    destruct (IHe _ _ Ei) as [c [-> Hc]].
    destruct (tag_end_syntax _ _ _ Ee) as [t [-> Ht]].
    exists h, c, t; auto. }
  assert (El : forall r o, element s = Ok r o ->
     o = EOF \/ exists p, s = p ++ r /\ renders_el ws_run o p).
  { intros r o H; rewrite element_eq in H.
    destruct (map eof (fun _ => EOF) s) as [r0 o0| |] eqn:E0.
    - apply map_ok in E0 as [x [_ ->]]; injection H as _ <-; now left.
    - right; destruct (plain_text s) as [r1 o1| |] eqn:E1.
      + injection H as <- <-.
        unfold plain_text, context in E1; apply map_ok in E1 as [x [E1 ->]].
        apply escaped_str_ok in E1 as ->; exists x; split; [reflexivity|constructor].
      + unfold block, map_res in H.
        destruct (closed_tag s) as [r1 [[k v] i]| |] eqn:Ec; try discriminate.
        injection H as <- <-.
        destruct (Ct _ _ _ _ eq_refl) as [h [c [t [-> [Hh [Hc Ht]]]]]].
        exists (h ++ c ++ t); split; [now rewrite ?sapp_assoc|].
        unfold block_of.
        apply (renders_block ws_run (mkBlock i k (match v with Some x => Some x | None => None end)));
          simpl; [destruct v; exact Hh|exact Hc|exact Ht].
      + discriminate.
    - discriminate. }
  split; [exact Ct|]; split; [exact El|].
  intros r es H; rewrite elements_eq in H.
  destruct (element s) as [s1 o| |] eqn:E; try discriminate.
  - destruct (Nat.eqb_spec (String.length s1) (String.length s)) as [|Hne]; [discriminate|].
    destruct (elements s1) as [r2 os| |] eqn:Es; try discriminate; cbn [bind] in H.
    injection H as <- <-.
    assert (Hl := element_length _ _ _ E).
    destruct (El _ _ eq_refl) as [->|[p [-> Hp]]].
    { apply element_eof_only_empty in E; subst; contradiction. }
    destruct (IH (String.length s1) ltac:(lia) s1 eq_refl) as [_ [_ IHe]].
    destruct (IHe _ _ Es) as [q [-> Hq]].
    exists (p ++ q); split; [now rewrite sapp_assoc|constructor; assumption].
  - injection H as <- <-; exists EmptyString; split; [reflexivity|constructor].
Qed.

(** The whole input is consumed by a successful parse, and the tree
    reproduces it up to the whitespace runs inside tags and the choice of
    quoting. *)
Lemma parse_renders n : forall s, String.length s = n ->
  forall r es, parse s = Ok r es -> r = EmptyString /\ renders ws_run es s.
Proof.
  induction n as [n IH] using (well_founded_induction lt_wf); intros s Hn r es H.
  rewrite parse_eq in H.
  destruct s as [|c s'].
  - injection H as <- <-; split; [reflexivity|constructor].
  - cbn [eof] in H.
    destruct (element (String c s')) as [s1 o| |] eqn:E; try discriminate.
    destruct (Nat.eqb_spec (String.length s1) (String.length (String c s'))) as [|Hne];
      [discriminate|].
    destruct (parse s1) as [r2 os| |] eqn:Ep; try discriminate; cbn [bind] in H.
    injection H as <- <-.
    assert (Hl := element_length _ _ _ E).
    destruct (IH (String.length s1) ltac:(lia) s1 eq_refl _ _ Ep) as [-> Hos].
    destruct (proj1 (proj2 (renders_sound _ _ eq_refl)) _ _ E) as [->|[p [Hs Hp]]].
    { apply element_eof_only_empty in E; subst; contradiction. }
    split; [reflexivity|]; rewrite Hs; constructor; assumption.
Qed.

(** ** The escaped loop: fuel, skipping a plain prefix, soundness *)

Lemma escaped_loop_fuel {A B} (normal : Parser A) cc (escapable : Parser B) :
  consumes normal -> consumes escapable ->
  forall f f' acc t, String.length t < f -> String.length t < f' ->
  escaped_loop normal cc escapable f acc t = escaped_loop normal cc escapable f' acc t.
Proof.
  intros Hn He f; induction f as [|f IH]; intros f' acc t Hf Hf'; [lia|].
  destruct f' as [|f']; [lia|].
  destruct t as [|c t']; [reflexivity|]; cbn [escaped_loop].
  destruct (normal (String c t')) as [i2 y| |] eqn:En; [| |reflexivity].
  - destruct (Hn _ _ _ En) as [w Hw].
    destruct (Nat.eqb_spec (String.length i2) 0); [reflexivity|].
    destruct (Nat.eqb_spec (String.length i2) (String.length (String c t'))) as [|NL];
      [reflexivity|].
    assert (String.length i2 <= String.length (String c t'))
      by (rewrite Hw, slength_app; lia).
    apply IH; simpl in *; lia.
  - destruct (ascii_dec c cc); [|reflexivity].
    destruct (Nat.leb _ 1); [reflexivity|].
    destruct (escapable t') as [i2 y| |] eqn:Ee; try reflexivity.
    destruct (He _ _ _ Ee) as [w Hw].
    destruct (Nat.eqb_spec (String.length i2) 0); [reflexivity|].
    assert (String.length i2 <= String.length t') by (rewrite Hw, slength_app; lia).
    apply IH; simpl in *; lia.
Qed.

Definition special_or_empty (t : string) : bool :=
  match t with
  | EmptyString => true
  | String c _ => in_chars c escaped_str_chars
  end.

Lemma span_until_rest stop s a b :
  span_until stop s = (a, b) ->
  match b with String c _ => stop c | EmptyString => true end = true.
Proof.
  revert a b; induction s as [|c s IH]; simpl; intros a b H.
  - now injection H as <- <-.
  - destruct (stop c) eqn:Ec.
    + now injection H as <- <-.
    + destruct (span_until stop s) as [a' b'] eqn:E; injection H as <- <-.
      exact (IH _ _ eq_refl).
Qed.

Lemma span_until_app_gen stop i t a b :
  span_until stop i = (a, b) ->
  (b <> EmptyString \/ match t with String c _ => stop c | EmptyString => true end = true) ->
  span_until stop (i ++ t) = (a, b ++ t).
Proof.
  intros E Hc.
  rewrite (span_until_app _ _ _ _ E), sapp_assoc.
  apply span_until_app_stop; [exact (span_until_all _ _ _ _ E)|].
  pose proof (span_until_rest _ _ _ _ E) as Hb.
  destruct b as [|c b']; [destruct Hc as [Hc|Hc]; [contradiction|exact Hc]|exact Hb].
Qed.

Definition N_ := is_not escaped_str_chars.
Definition E_ := one_of escaped_str_escapable.

Lemma escaped_loop_skip : forall f f' acc i t,
  plain_ok i = true -> special_or_empty t = true ->
  String.length (i ++ t) < f -> String.length t < f' ->
  escaped_loop N_ bs E_ f acc (i ++ t) = escaped_loop N_ bs E_ f' (acc ++ i) t.
Proof.
  induction f as [|f IH]; intros f' acc i t Hp Ht Hf Hf'; [lia|].
  destruct i as [|c i'].
  { rewrite sapp_nil_r; simpl append.
    apply (escaped_loop_fuel _ _ _ (consumes_is_not _) (consumes_one_of _)); simpl in *; lia. }
  cbn [append escaped_loop]; unfold N_ at 1.
  destruct (in_chars c escaped_str_chars) eqn:Ec.
  - assert (En : is_not escaped_str_chars (String c (i' ++ t)) = Error)
      by (unfold is_not; cbn [span_until]; rewrite Ec; reflexivity).
    rewrite En.
    cbn [plain_ok] in Hp; destruct (ascii_dec c bs) as [->|Hne];
      [|rewrite Ec in Hp; discriminate].
    destruct (ascii_dec bs bs) as [_|]; [|contradiction].
    destruct i' as [|d i'']; [discriminate|].
    apply andb_prop in Hp as [Hd Hp].
    cbn [append String.length Nat.leb]; unfold E_ at 1; cbn [one_of]; rewrite Hd.
    destruct (Nat.eqb_spec (String.length (i'' ++ t)) 0) as [Z|NZ].
    + destruct i''; [|discriminate]; destruct t; [|discriminate].
      destruct f' as [|f']; [simpl in Hf'; lia|]; reflexivity.
    + change (String bs (String d (i'' ++ t))) with (String bs (String d EmptyString) ++ (i'' ++ t)).
      replace (S (S (String.length (i'' ++ t))) - String.length (i'' ++ t)) with
        (String.length (String bs (String d EmptyString))) by (cbn [String.length]; lia).
      rewrite substring_app_l.
      rewrite IH with (f' := f') by (exact Hp || exact Ht || exact Hf' ||
                                       (simpl in Hf; rewrite ?slength_app in *; lia)).
      now rewrite sapp_assoc.
  - destruct (span_until (fun c => in_chars c escaped_str_chars) i') as [a b] eqn:Es.
    assert (Es' := span_until_app_gen _ _ t _ _ Es).
    assert (Hst : span_until (fun c => in_chars c escaped_str_chars) (i' ++ t) = (a, b ++ t)).
    { apply Es'; destruct b as [|cb b']; [right; exact Ht|left; discriminate]. }
    assert (En : is_not escaped_str_chars (String c (i' ++ t)) = Ok (b ++ t) (String c a))
      by (unfold is_not; cbn [span_until]; rewrite Ec, Hst; reflexivity).
    rewrite En.
    assert (Hi := span_until_app _ _ _ _ Es).
    assert (Ha := span_until_all _ _ _ _ Es).
    assert (Hb : plain_ok b = true).
    { cbn [plain_ok] in Hp; destruct (ascii_dec c bs) as [->|];
        [rewrite in_chars_bs_special in Ec; discriminate|].
      rewrite Ec in Hp; cbn [plain_ok] in Hp; rewrite Hi, plain_ok_app in Hp; [exact Hp|].
      rewrite <- Ha; apply all_chars_ext; reflexivity. }
    destruct (Nat.eqb_spec (String.length (b ++ t)) 0) as [Z|NZ].
    { destruct b; [|discriminate]; destruct t; [|discriminate].
      destruct f' as [|f']; [simpl in Hf'; lia|].
      rewrite Hi, !sapp_nil_r; reflexivity. }
    destruct (Nat.eqb_spec (String.length (b ++ t)) (String.length (String c (i' ++ t)))) as [L|NL].
    { exfalso; rewrite Hi in L; simpl in L; rewrite !slength_app in L; lia. }
    rewrite Hi, sapp_assoc.
    change (String c (a ++ b ++ t)) with (String c a ++ (b ++ t)).
    rewrite slength_app, Nat.add_sub, substring_app_l.
    rewrite IH with (f' := f') by (exact Hb || exact Ht || exact Hf' ||
        (simpl in Hf; rewrite Hi in Hf; rewrite ?slength_app in *; lia)).
    now rewrite ?sapp_assoc.
Qed.

Lemma text_stop_special t : text_stop t = true -> special_or_empty t = true.
Proof.
  destruct t as [|c t]; cbn [text_stop special_or_empty]; [reflexivity|].
  intros H; now apply andb_prop in H as [H _].
Qed.

Lemma escaped_str_eq s :
  escaped_str s = escaped_loop N_ bs E_ (S (String.length s)) EmptyString s.
Proof. reflexivity. Qed.

Lemma is_not_error_first chars c s :
  is_not chars (String c s) = Error -> in_chars c chars = true.
Proof.
  unfold is_not; cbn [span_until]; destruct (in_chars c chars); [reflexivity|].
  destruct (span_until _ s); discriminate.
Qed.

Lemma escaped_str_complete x r :
  plain_ok x = true -> x <> EmptyString -> text_stop r = true ->
  escaped_str (x ++ r) = Ok r x.
Proof.
  intros Hp Hne Hr; rewrite escaped_str_eq.
  rewrite (escaped_loop_skip _ (S (String.length r))) by
    (exact Hp || now apply text_stop_special || (rewrite slength_app; lia) || lia).
  simpl (EmptyString ++ x).
  destruct r as [|c r']; [reflexivity|].
  cbn [escaped_loop]; unfold N_.
  cbn [text_stop] in Hr; apply andb_prop in Hr as [Hc Hb].
  assert (En : is_not escaped_str_chars (String c r') = Error)
    by (unfold is_not; cbn [span_until]; rewrite Hc; reflexivity).
  rewrite En.
  destruct (ascii_dec c bs) as [->|]; [discriminate|].
  destruct x; [contradiction|reflexivity].
Qed.

Lemma escaped_str_bad_escape x r :
  plain_ok x = true ->
  match r with EmptyString => true | String d _ => negb (in_chars d escaped_str_escapable) end
    = true ->
  escaped_str (x ++ String bs r) = Error.
Proof.
  intros Hp Hr; rewrite escaped_str_eq.
  rewrite (escaped_loop_skip _ (S (String.length (String bs r)))) by
    (exact Hp || reflexivity || (rewrite slength_app; lia) || lia).
  cbn [escaped_loop]; unfold N_.
  assert (En : is_not escaped_str_chars (String bs r) = Error) by reflexivity.
  rewrite En; destruct (ascii_dec bs bs) as [_|]; [|contradiction].
  destruct r as [|d r']; [reflexivity|].
  cbn [String.length Nat.leb]; unfold E_; cbn [one_of].
  destruct (in_chars d escaped_str_escapable); [discriminate|reflexivity].
Qed.

Lemma plain_ok_concat : forall n a b, String.length a <= n ->
  plain_ok a = true -> plain_ok b = true -> plain_ok (a ++ b) = true.
Proof.
  induction n as [|n IH]; intros a b Hl Ha Hb.
  { destruct a; [exact Hb|simpl in Hl; lia]. }
  destruct a as [|c a']; [exact Hb|].
  cbn [append plain_ok] in *.
  destruct (ascii_dec c bs).
  - destruct a' as [|d a'']; [discriminate|].
    apply andb_prop in Ha as [Hd Ha]; cbn [append]; rewrite Hd; simpl.
    apply IH; [simpl in Hl; lia|exact Ha|exact Hb].
  - apply andb_prop in Ha as [Hc Ha]; rewrite Hc; simpl.
    apply IH; [simpl in Hl; lia|exact Ha|exact Hb].
Qed.

Lemma plain_ok_app_ok a b :
  plain_ok a = true -> plain_ok b = true -> plain_ok (a ++ b) = true.
Proof. intros; now apply (plain_ok_concat (String.length a)). Qed.

Lemma all_nonspecial_plain x :
  all_chars (fun c => negb (in_chars c escaped_str_chars)) x = true -> plain_ok x = true.
Proof.
  intros H; rewrite <- (sapp_nil_r x), plain_ok_app; [reflexivity|exact H].
Qed.

Lemma escaped_loop_sound : forall f acc i r x,
  plain_ok acc = true ->
  escaped_loop N_ bs E_ f acc i = Ok r x ->
  plain_ok x = true /\ text_stop r = true /\ (i <> EmptyString -> x <> EmptyString).
Proof.
  induction f as [|f IH]; intros acc i r x Hacc H; [discriminate|].
  destruct i as [|c i'].
  { cbn in H; injection H as <- <-; repeat split; [exact Hacc|intros []; reflexivity]. }
  cbn [escaped_loop] in H.
  assert (Hne : forall a b, a ++ String c b <> EmptyString) by (intros [|] b; discriminate).
  destruct (N_ (String c i')) as [i2 y| |] eqn:En; [| |discriminate].
  - unfold N_ in En; apply is_not_ok in En as [Hi [Hy Ha]].
    apply all_nonspecial_plain in Ha.
    destruct (Nat.eqb_spec (String.length i2) 0) as [Z|NZ].
    { injection H as <- <-; destruct i2; [|discriminate].
      rewrite sapp_nil_r in Hi; rewrite Hi.
      split; [now apply plain_ok_app_ok|]; split; [reflexivity|].
      intros _; destruct acc, y; simpl; try discriminate; contradiction. }
    destruct (Nat.eqb_spec (String.length i2) (String.length (String c i'))) as [L|NL].
    { exfalso; rewrite Hi, slength_app in L; destruct y; [contradiction|simpl in L; lia]. }
    rewrite Hi, slength_app, Nat.add_sub, substring_app_l in H.
    destruct (IH _ _ _ _ (plain_ok_app_ok _ _ Hacc Ha) H) as [Hx [Hr Hn]].
    split; [exact Hx|]; split; [exact Hr|]; intros _; apply Hn.
    destruct i2; [simpl in NZ; lia|discriminate].
  - destruct (ascii_dec c bs) as [->|Hc].
    + destruct (Nat.leb _ 1); [discriminate|].
      destruct (E_ i') as [i2 d| |] eqn:Ee; try discriminate.
      unfold E_ in Ee; destruct i' as [|d' i'']; [discriminate|]; cbn [one_of] in Ee.
      destruct (in_chars d' escaped_str_escapable) eqn:Ed; [|discriminate].
      injection Ee as -> <-.
      assert (Hbd : plain_ok (String bs (String d' EmptyString)) = true)
        by (cbn [plain_ok]; destruct (ascii_dec bs bs) as [_|]; [rewrite Ed; reflexivity|contradiction]).
      destruct (Nat.eqb_spec (String.length i2) 0) as [Z|NZ].
      { injection H as <- <-; destruct i2; [|discriminate].
        split; [now apply plain_ok_app_ok|]; split; [reflexivity|].
        intros _; destruct acc; discriminate. }
      change (String bs (String d' i2)) with (String bs (String d' EmptyString) ++ i2) in H.
      rewrite slength_app, Nat.add_sub, substring_app_l in H.
      destruct (IH _ _ _ _ (plain_ok_app_ok _ _ Hacc Hbd) H) as [Hx [Hr Hn]].
      split; [exact Hx|]; split; [exact Hr|]; intros _; apply Hn.
      destruct i2; [simpl in NZ; lia|discriminate].
    + destruct (Nat.eqb_spec (String.length acc) 0) as [Z|NZ]; [discriminate|].
      injection H as <- <-.
      unfold N_ in En; apply is_not_error_first in En.
      split; [exact Hacc|]; split.
      * cbn [text_stop]; rewrite En; cbn [andb negb].
        destruct (Ascii.eqb_spec c bs); [contradiction|reflexivity].
      * intros _ ->; simpl in NZ; lia.
Qed.

Lemma escaped_loop_not_failure : forall f acc i,
  escaped_loop N_ bs E_ f acc i <> Failure.
Proof.
  induction f as [|f IH]; intros acc i; [discriminate|].
  destruct i as [|c i']; [discriminate|]; cbn [escaped_loop].
  destruct (N_ (String c i')) as [i2 y| |] eqn:En.
  - destruct (Nat.eqb _ 0); [discriminate|]; destruct (Nat.eqb _ _); [discriminate|].
    apply IH.
  - destruct (ascii_dec c bs); [|destruct (Nat.eqb _ 0); discriminate].
    destruct (Nat.leb _ 1); [discriminate|].
    destruct (E_ i') as [i2 d| |] eqn:Ee; try discriminate.
    + destruct (Nat.eqb _ 0); [discriminate|apply IH].
    + unfold E_ in Ee; destruct i' as [|d i'']; [discriminate|]; cbn [one_of] in Ee.
      destruct (in_chars d _); discriminate.
  - unfold N_, is_not in En; destruct (span_until _ _) as [[|] ?]; discriminate.
Qed.

Lemma escaped_str_sound s r x :
  escaped_str s = Ok r x ->
  s = x ++ r /\ plain_ok x = true /\ text_stop r = true /\ (x = EmptyString -> s = EmptyString).
Proof.
  intros H; pose proof (escaped_str_ok _ _ _ H) as Hs.
  rewrite escaped_str_eq in H.
  destruct (escaped_loop_sound _ EmptyString _ _ _ eq_refl H) as [Hx [Hr Hn]].
  split; [exact Hs|]; split; [exact Hx|]; split; [exact Hr|].
  intros ->; destruct s; [reflexivity|]; exfalso; apply Hn; [discriminate|reflexivity].
Qed.

Lemma escaped_str_not_failure s : escaped_str s <> Failure.
Proof. rewrite escaped_str_eq; apply escaped_loop_not_failure. Qed.

(** ** Token rules: exactly which inputs they accept *)

Lemma special_in_sws c :
  in_chars c escaped_str_chars = true -> in_chars c string_without_space_chars = true.
Proof.
  unfold escaped_str_chars, string_without_space_chars; cbn [in_chars append].
  repeat (destruct (ascii_dec c _); [reflexivity|]); discriminate.
Qed.

Lemma name_plain x : tag_name_ok x = true -> plain_ok x = true /\ x <> EmptyString.
Proof.
  destruct x as [|c x']; [discriminate|]; intros H; split; [|discriminate].
  apply all_nonspecial_plain; unfold tag_name_ok in H; revert H.
  generalize (String c x'); intros y; induction y as [|d y IH]; [reflexivity|].
  cbn [all_chars]; intros H; apply andb_prop in H as [Hd Hy]; rewrite (IH Hy).
  destruct (in_chars d escaped_str_chars) eqn:E; [|reflexivity].
  rewrite (special_in_sws _ E) in Hd; discriminate.
Qed.

Lemma is_not_rest chars s r x :
  is_not chars s = Ok r x ->
  match r with String c _ => in_chars c chars | EmptyString => true end = true.
Proof.
  unfold is_not; destruct (span_until _ s) as [run rest] eqn:E.
  destruct run; [discriminate|]; intros H; injection H as <- <-.
  exact (span_until_rest _ _ _ _ E).
Qed.

Lemma is_not_not_failure chars s : is_not chars s <> Failure.
Proof. unfold is_not; destruct (span_until _ s) as [[|] ?]; discriminate. Qed.

Lemma name_first_not_ws x r :
  tag_name_ok x = true ->
  match x ++ r with String c _ => negb (is_multispace c) | EmptyString => true end = true.
Proof.
  destruct x as [|c x']; [discriminate|]; cbn [append tag_name_ok all_chars].
  intros H; apply andb_prop in H as [Hc _].
  destruct (is_multispace c) eqn:E; [|reflexivity].
  apply multispace_special in E; rewrite E in Hc; discriminate.
Qed.

Lemma sws_complete w x r :
  ws_run w = true -> tag_name_ok x = true -> name_stop r = true ->
  string_without_space (w ++ x ++ r) = Ok r x.
Proof.
  intros Hw Hx Hr; unfold string_without_space, context, preceded, bind.
  rewrite multispace0_app by (exact Hw || now apply name_first_not_ws).
  apply is_not_app; [destruct x; [discriminate|discriminate]| |].
  - unfold tag_name_ok in Hx; destruct x; [discriminate|exact Hx].
  - destruct r; exact Hr.
Qed.

Lemma sws_sound s r x :
  string_without_space s = Ok r x ->
  exists w, s = w ++ x ++ r /\ ws_run w = true /\ tag_name_ok x = true /\ name_stop r = true.
Proof.
  intros H; destruct (string_without_space_ok _ _ _ H) as [w [Hs [Hw Hx]]].
  exists w; split; [exact Hs|]; split; [exact Hw|]; split; [exact Hx|].
  unfold string_without_space, context, preceded, bind in H.
  destruct (multispace0 s); try discriminate.
  apply is_not_rest in H; destruct r; exact H.
Qed.

Lemma sws_not_failure s : string_without_space s <> Failure.
Proof.
  unfold string_without_space, context, preceded, bind, multispace0.
  destruct (span_until _ s); apply is_not_not_failure.
Qed.

Lemma sws_dq t : string_without_space (String dq t) = Error.
Proof. reflexivity. Qed.

Lemma string_quoted_error s : string_quoted s = Error <-> (forall t, s <> String dq t).
Proof.
  unfold string_quoted, context, preceded, bind, cut.
  split.
  - intros H t ->; cbn [char] in H; destruct (ascii_dec dq dq) as [_|]; [|contradiction].
    destruct (terminated _ _ t); discriminate.
  - intros H; destruct s as [|c t]; [reflexivity|]; cbn [char].
    destruct (ascii_dec dq c) as [<-|]; [exfalso; exact (H t eq_refl)|reflexivity].
Qed.

Lemma string_quoted_sound s r x :
  string_quoted s = Ok r x -> s = quote x ++ r /\ plain_ok x = true /\ x <> EmptyString.
Proof.
  intros H; split; [now apply string_quoted_ok|].
  unfold string_quoted, context in H.
  apply preceded_ok in H as [r1 [c [H1 H2]]]; apply char_ok in H1 as [-> _].
  apply cut_ok, terminated_ok in H2 as [r2 [d [H2 H3]]].
  apply char_ok in H3 as [-> _].
  destruct (escaped_str_sound _ _ _ H2) as [Hs [Hx [_ Hn]]].
  split; [exact Hx|]; intros ->; specialize (Hn eq_refl); rewrite Hs in Hn; discriminate.
Qed.

Lemma string_quoted_complete x r :
  plain_ok x = true -> x <> EmptyString -> string_quoted (quote x ++ r) = Ok r x.
Proof.
  intros Hx Hn; unfold string_quoted, context, preceded, bind, quote.
  cbn [append char]; destruct (ascii_dec dq dq) as [_|]; [|contradiction].
  unfold cut, terminated, bind; rewrite sapp_assoc; cbn [append].
  rewrite escaped_str_complete by (exact Hx || exact Hn || reflexivity).
  cbn [char]; destruct (ascii_dec dq dq) as [_|]; [reflexivity|contradiction].
Qed.

Lemma tag_value_iff s r x :
  tag_value s = Ok r x <->
  (exists w, s = w ++ x ++ r /\ ws_run w = true /\ tag_name_ok x = true /\ name_stop r = true) \/
  (s = quote x ++ r /\ plain_ok x = true /\ x <> EmptyString).
Proof.
  split.
  - unfold tag_value, context; intros H; apply alt_ok in H as [H|H].
    + left; now apply sws_sound.
    + right; now apply string_quoted_sound.
  - intros [[w [-> [Hw [Hx Hr]]]]|[-> [Hx Hn]]]; unfold tag_value, context, alt.
    + now rewrite sws_complete.
    + unfold quote at 1; cbn [append]; rewrite sws_dq.
      now apply string_quoted_complete.
Qed.

(** ** Tag heads and tails: exactly which inputs they accept *)

Lemma name_stop_ws w t : ws_run w = true -> name_stop t = true -> name_stop (w ++ t) = true.
Proof.
  destruct w as [|c w']; [tauto|]; intros Hw _.
  cbn [append name_stop]; unfold ws_run in Hw; cbn [all_chars] in Hw.
  apply andb_prop in Hw as [Hc _]; now apply multispace_special.
Qed.

Lemma sws_complete0 x r :
  tag_name_ok x = true -> name_stop r = true -> string_without_space (x ++ r) = Ok r x.
Proof. intros; exact (sws_complete EmptyString x r eq_refl H H0). Qed.

Lemma key_after_ws w1 k rest :
  ws_run w1 = true -> tag_name_ok k = true -> name_stop rest = true ->
  preceded multispace0 tag_key (w1 ++ k ++ rest) = Ok rest k.
Proof.
  intros H1 Hk Hr; unfold preceded, bind.
  rewrite multispace0_app by (exact H1 || now apply name_first_not_ws).
  unfold tag_key, context; now apply sws_complete0.
Qed.

Lemma sep_after_ws w c x :
  ws_run w = true -> is_multispace c = false ->
  preceded multispace0 (char c) (w ++ String c x) = Ok x c.
Proof.
  intros Hw Hc; unfold preceded, bind.
  rewrite multispace0_app by (exact Hw || (cbn [negb]; now rewrite Hc)).
  cbn [char]; destruct (ascii_dec c c) as [_|]; [reflexivity|contradiction].
Qed.

Lemma value_after_ws w3 x t rest :
  ws_run w3 = true -> value_src x t -> name_stop rest = true ->
  preceded multispace0 tag_value (w3 ++ t ++ rest) = Ok rest x.
Proof.
  intros H3 [[w [Hw [Hx ->]]]|[Hx [Hn ->]]] Hr; unfold preceded, bind.
  - rewrite sapp_assoc, <- (sapp_assoc w3 w).
    rewrite multispace0_app by (rewrite ?ws_run_app, ?H3, ?Hw; reflexivity ||
                                now apply name_first_not_ws).
    apply tag_value_iff; left; exists EmptyString; auto.
  - rewrite multispace0_app by (exact H3 || reflexivity).
    apply tag_value_iff; right; auto.
Qed.

Lemma keypair_complete_none w1 k w4 r :
  ws_run w1 = true -> tag_name_ok k = true -> ws_run w4 = true ->
  tag_head_keypair (w1 ++ k ++ w4 ++ String "]" r) = Ok (w4 ++ String "]" r) (k, None).
Proof.
  intros H1 Hk H4.
  assert (Hs : name_stop (w4 ++ String "]" r) = true) by (apply name_stop_ws; auto).
  unfold tag_head_keypair, context, alt, map, separated_pair, bind.
  rewrite key_after_ws by assumption.
  unfold preceded at 1, bind at 1.
  rewrite multispace0_app by (exact H4 || reflexivity).
  reflexivity.
Qed.

Lemma keypair_complete_some w1 k w2 w3 x t w4 r :
  ws_run w1 = true -> tag_name_ok k = true -> ws_run w2 = true -> ws_run w3 = true ->
  value_src x t -> ws_run w4 = true ->
  tag_head_keypair (w1 ++ k ++ w2 ++ "=" ++ w3 ++ t ++ w4 ++ String "]" r) =
  Ok (w4 ++ String "]" r) (k, Some x).
Proof.
  intros H1 Hk H2 H3 Hv H4.
  assert (Hs : name_stop (w4 ++ String "]" r) = true) by (apply name_stop_ws; auto).
  assert (Hs2 : name_stop (w2 ++ "=" ++ w3 ++ t ++ w4 ++ String "]" r) = true)
    by (apply name_stop_ws; auto).
  unfold tag_head_keypair, context, alt, map, separated_pair, bind.
  rewrite key_after_ws by assumption.
  change (w2 ++ "=" ++ ?X) with (w2 ++ String "=" X).
  rewrite (sep_after_ws w2 "=" (w3 ++ t ++ w4 ++ String "]" r) H2 eq_refl).
  rewrite (value_after_ws w3 x t) by assumption.
  reflexivity.
Qed.

Lemma keypair_sound s r k v :
  tag_head_keypair s = Ok r (k, v) ->
  exists w1, ws_run w1 = true /\ tag_name_ok k = true /\
  match v with
  | None => s = w1 ++ k ++ r
  | Some x =>
      exists w2 w3 t, ws_run w2 = true /\ ws_run w3 = true /\ value_src x t /\
      s = w1 ++ k ++ w2 ++ "=" ++ w3 ++ t ++ r
  end.
Proof.
  unfold tag_head_keypair, context, tag_key, context; intros H.
  apply alt_ok in H as [H|H];
    [apply map_ok in H as [[k' v'] [H Heq]] | apply map_ok in H as [k' [H Heq]]].
  - simpl in Heq; injection Heq as -> ->.
    apply separated_pair_ok in H as [r1 [r2 [u [H1 [H2 H3]]]]].
    apply preceded_ok in H1 as [r1' [w1 [M1 K]]]; apply multispace0_ok in M1 as [-> Hw1].
    apply string_without_space_ok in K as [w1' [-> [Hw1' Hk]]].
    apply preceded_ok in H2 as [r2' [w2 [M2 E]]]; apply multispace0_ok in M2 as [-> Hw2].
    apply char_ok in E as [-> _].
    apply preceded_ok in H3 as [r3' [w3 [M3 V]]]; apply multispace0_ok in M3 as [-> Hw3].
    exists (w1 ++ w1'); split; [rewrite ws_run_app, Hw1, Hw1'; reflexivity|].
    split; [exact Hk|].
    apply tag_value_iff in V as [[w [-> [Hw [Hx _]]]]|[-> [Hx Hn]]].
    + exists w2, w3, (w ++ v'); split; [exact Hw2|]; split; [exact Hw3|].
      split; [left; exists w; auto|now rewrite ?sapp_assoc].
    + exists w2, w3, (quote v'); split; [exact Hw2|]; split; [exact Hw3|].
      split; [right; auto|now rewrite ?sapp_assoc].
  - simpl in Heq; injection Heq as -> ->.
    apply preceded_ok in H as [r1' [w1 [M1 K]]]; apply multispace0_ok in M1 as [-> Hw1].
    apply string_without_space_ok in K as [w1' [-> [Hw1' Hk]]].
    exists (w1 ++ w1'); split; [rewrite ws_run_app, Hw1, Hw1'; reflexivity|].
    split; [exact Hk|]; now rewrite !sapp_assoc.
Qed.

Lemma tag_head_sound s r k v :
  tag_head s = Ok r (k, v) -> exists h, s = h ++ r /\ head_form k v h.
Proof.
  intros H; destruct (tag_head_ok _ _ _ H) as [r1 [w [-> [Hk Hw]]]].
  destruct (keypair_sound _ _ _ _ Hk) as [w1 [H1 [Hkn Hv]]].
  destruct v as [x|].
  - destruct Hv as [w2 [w3 [t [H2 [H3 [Hx E]]]]]].
    exists (String "[" (w1 ++ k ++ w2 ++ "=" ++ w3 ++ t ++ w ++ "]")); split.
    + rewrite E; str_eq.
    + exists w1, w; split; [exact H1|]; split; [exact Hw|]; split; [exact Hkn|].
      exists w2, w3, t; auto.
  - exists (String "[" (w1 ++ k ++ w ++ "]")); split.
    + rewrite Hv; str_eq.
    + exists w1, w; auto.
Qed.

Lemma not_slash_ok w1 k t :
  ws_run w1 = true -> tag_name_ok k = true -> not (char "/") (w1 ++ k ++ t) = Ok (w1 ++ k ++ t) tt.
Proof.
  intros H1 Hk; unfold not.
  destruct w1 as [|c w1'].
  - destruct k as [|c k']; [discriminate|]; cbn [append char].
    destruct (ascii_dec "/" c) as [<-|]; [discriminate|reflexivity].
  - cbn [append char]; destruct (ascii_dec "/" c) as [<-|]; [discriminate|reflexivity].
Qed.

Lemma tag_head_complete h r k v :
  head_form k v h -> tag_head (h ++ r) = Ok r (k, v).
Proof.
  intros [w1 [w4 [H1 [H4 [Hk Hv]]]]].
  unfold tag_head, context, preceded, tuple2, bind, cut, terminated.
  destruct v as [x|].
  - destruct Hv as [w2 [w3 [t [H2 [H3 [Hx ->]]]]]].
    change (String "[" ?A ++ r) with (String "[" (A ++ r)); rewrite ?sapp_assoc.
    change ("]" ++ r) with (String "]" r); cbn [char].
    destruct (ascii_dec "[" "[") as [_|]; [|contradiction].
    rewrite not_slash_ok by assumption.
    rewrite (keypair_complete_some w1 k w2 w3 x t w4 r) by assumption.
    cbn [bind]; rewrite multispace0_app by (exact H4 || reflexivity); reflexivity.
  - subst h; change (String "[" ?A ++ r) with (String "[" (A ++ r)); rewrite ?sapp_assoc.
    change ("]" ++ r) with (String "]" r); cbn [char].
    destruct (ascii_dec "[" "[") as [_|]; [|contradiction].
    rewrite not_slash_ok by assumption.
    rewrite keypair_complete_none by assumption.
    cbn [bind]; rewrite multispace0_app by (exact H4 || reflexivity); reflexivity.
Qed.

Lemma tag_head_error_iff s :
  tag_head s = Error <->
  (forall t, s <> String "[" t) \/ (exists t, s = String "[" (String "/" t)).
Proof.
  split.
  - intros H; destruct s as [|c s']; [left; discriminate|].
    destruct (ascii_dec c "[") as [->|Hc]; [|left; intros t E; injection E as E _; contradiction].
    assert (Hd : (exists t, s' = String "/" t) \/ (forall t, s' <> String "/" t)).
    { destruct s' as [|d t]; [right; discriminate|].
      destruct (ascii_dec d "/") as [->|Hd]; [left; eauto|right].
      intros t' E; injection E as E _; contradiction. }
    destruct Hd as [[t ->]|Hs]; [right; eauto|].
    exfalso; exact (tag_head_committed s' Hs H).
  - intros [H|[t ->]]; [|reflexivity].
    unfold tag_head, context, preceded, tuple2, bind.
    destruct s as [|c s']; [reflexivity|]; cbn [char].
    destruct (ascii_dec "[" c) as [<-|]; [exfalso; exact (H s' eq_refl)|reflexivity].
Qed.

Lemma strip_prefix_tail t : strip_prefix "[/" ("[/" ++ t) = Some t.
Proof. reflexivity. Qed.

Lemma tag_end_sound s r e :
  tag_end s = Ok r e -> exists t, s = t ++ r /\ tail_form e t.
Proof.
  unfold tag_end, context; intros H.
  apply preceded_ok in H as [r1 [t [T H]]].
  unfold Nom.tag in T; destruct (strip_prefix "[/" s) eqn:E; [|discriminate].
  injection T as <- _; apply strip_prefix_app in E as ->.
  apply cut_ok, terminated_ok in H as [r2 [y [V H]]].
  apply preceded_ok in H as [r3 [w2 [M C]]]; apply multispace0_ok in M as [-> Hw2].
  apply char_ok in C as [-> _].
  apply tag_value_iff in V as [[w [-> [Hw [He _]]]]|[-> [He Hn]]].
  - exists ("[/" ++ (w ++ e) ++ w2 ++ "]"); split; [str_eq|].
    exists (w ++ e), w2; split; [left; exists w; auto|split; [exact Hw2|reflexivity]].
  - exists ("[/" ++ quote e ++ w2 ++ "]"); split; [str_eq|].
    exists (quote e), w2; split; [right; auto|split; [exact Hw2|reflexivity]].
Qed.

Lemma tag_end_complete t r e : tail_form e t -> tag_end (t ++ r) = Ok r e.
Proof.
  intros [vs [w2 [Hv [Hw2 ->]]]].
  assert (Hs : name_stop (w2 ++ String "]" r) = true) by (apply name_stop_ws; auto).
  unfold tag_end, context, preceded, terminated, bind, cut, Nom.tag.
  rewrite !sapp_assoc, strip_prefix_tail.
  change ("]" ++ r) with (String "]" r).
  destruct Hv as [[w [Hw [Hx ->]]]|[Hx [Hn ->]]].
  - rewrite sapp_assoc.
    assert (V : tag_value (w ++ e ++ w2 ++ String "]" r) = Ok (w2 ++ String "]" r) e)
      by (apply tag_value_iff; left; exists w; auto).
    rewrite V; rewrite multispace0_app by (exact Hw2 || reflexivity); reflexivity.
  - assert (V : tag_value (quote e ++ w2 ++ String "]" r) = Ok (w2 ++ String "]" r) e)
      by (apply tag_value_iff; right; auto).
    rewrite V; rewrite multispace0_app by (exact Hw2 || reflexivity); reflexivity.
Qed.

Lemma tag_end_error_iff s : tag_end s = Error <-> (forall t, s <> "[/" ++ t).
Proof.
  split.
  - intros H t ->; revert H; unfold tag_end, context, preceded, bind, Nom.tag.
    rewrite strip_prefix_tail; unfold cut.
    destruct (terminated _ _ t); discriminate.
  - intros H; unfold tag_end, context, preceded, bind, Nom.tag.
    destruct (strip_prefix "[/" s) eqn:E; [|reflexivity].
    apply strip_prefix_app in E; now destruct (H s0).
Qed.

(** ** Well-formedness of the trees the parser builds *)

Lemma plain_text_at_stop s :
  text_stop s = true -> s <> EmptyString -> plain_text s = Error.
Proof.
  intros Hs Hne; unfold plain_text, context, map, bind.
  destruct (escaped_str s) as [r x| |] eqn:E.
  - exfalso; destruct (escaped_str_sound _ _ _ E) as [-> [Hx [_ Hn]]].
    destruct x as [|c x']; [now apply Hne, Hn|].
    cbn [append text_stop] in Hs; apply andb_prop in Hs as [Hc Hb].
    cbn [plain_ok] in Hx; destruct (ascii_dec c bs) as [->|]; [discriminate Hb|].
    rewrite Hc in Hx; discriminate.
  - reflexivity.
  - exfalso; exact (escaped_str_not_failure _ E).
Qed.

Lemma element_after_text s r o :
  text_stop s = true -> element s = Ok r o -> is_text o = false.
Proof.
  intros Hs H; rewrite element_eq in H.
  destruct s as [|c s']; [injection H as _ <-; reflexivity|].
  cbn [map bind eof] in H.
  rewrite plain_text_at_stop in H by (exact Hs || discriminate).
  unfold block, map_res in H.
  destruct (closed_tag (String c s')) as [r1 [[k v] i]| |]; try discriminate.
  injection H as _ <-; reflexivity.
Qed.

Lemma elements_cons s r o os :
  elements s = Ok r (o :: os) -> exists s1, element s = Ok s1 o /\ elements s1 = Ok r os.
Proof.
  intros H; rewrite elements_eq in H.
  destruct (element s) as [s1 o1| |]; try discriminate.
  destruct (Nat.eqb _ _); [discriminate|].
  destruct (elements s1) as [r2 os'| |] eqn:E; try discriminate; cbn [bind] in H.
  injection H as <- <- <-; eauto.
Qed.

Lemma parse_cons s r o os :
  parse s = Ok r (o :: os) -> exists s1, element s = Ok s1 o /\ parse s1 = Ok r os.
Proof.
  intros H; rewrite parse_eq in H.
  destruct (eof s); try discriminate.
  destruct (element s) as [s1 o1| |]; try discriminate.
  destruct (Nat.eqb _ _); [discriminate|].
  destruct (parse s1) as [r2 os'| |] eqn:E; try discriminate; cbn [bind] in H.
  injection H as <- <- <-; eauto.
Qed.

Lemma head_value_ok s r k v : tag_head s = Ok r (k, v) -> tag_name_ok k = true /\ value_ok v = true.
Proof.
  intros H; destruct (tag_head_sound _ _ _ _ H) as [h [_ [w1 [w4 [_ [_ [Hk Hv]]]]]]].
  split; [exact Hk|]; destruct v as [x|]; [|reflexivity].
  destruct Hv as [w2 [w3 [t [_ [_ [[[w [_ [Hx _]]]|[Hx [Hn _]]] _]]]]]].
  - destruct (name_plain _ Hx) as [Hp Hn]; cbn [value_ok]; rewrite Hp, andb_true_r.
    destruct x; [contradiction|reflexivity].
  - cbn [value_ok]; rewrite Hx, andb_true_r; destruct x; [contradiction|reflexivity].
Qed.

Lemma no_adjacent_cons o o' os :
  no_adjacent_text (o' :: os) = true -> (is_text o = true -> is_text o' = false) ->
  no_adjacent_text (o :: o' :: os) = true.
Proof.
  intros H Ht.
  change (no_adjacent_text (o :: o' :: os))
    with (negb (is_text o && is_text o') && no_adjacent_text (o' :: os)).
  rewrite H, andb_true_r.
  destruct (is_text o); [rewrite Ht; reflexivity|reflexivity].
Qed.

Lemma wf_sound n : forall s, String.length s = n ->
  (forall r k v inner, closed_tag s = Ok r (k, v, inner) ->
     tag_name_ok k = true /\ value_ok v = true /\ wf_list inner = true) /\
  (forall r o, element s = Ok r o ->
     o = EOF \/ (wf_el o = true /\ (is_text o = true -> text_stop r = true))) /\
  (forall r es, elements s = Ok r es -> wf_list es = true).
Proof.
  induction n as [n IH] using (well_founded_induction lt_wf); intros s Hn.
  assert (Ct : forall r k v inner, closed_tag s = Ok r (k, v, inner) ->
     tag_name_ok k = true /\ value_ok v = true /\ wf_list inner = true).
  { intros r k v inner H; rewrite closed_tag_eq in H.
    destruct (tag_head s) as [r1 [hk hv]| |] eqn:Eh; try discriminate.
    destruct (elements r1) as [r2 i| |] eqn:Ei; try discriminate; cbn [bind] in H.
    destruct (tag_end r2) as [r3 e| |] eqn:Ee; try discriminate.
    destruct (string_dec hk e) as [<-|]; [|discriminate].
    injection H as <- <- <- <-.
    destruct (head_value_ok _ _ _ _ Eh) as [Hk Hv].
    assert (Hl := tag_head_length _ _ _ Eh).
    destruct (IH (String.length r1) ltac:(lia) r1 eq_refl) as [_ [_ IHe]].
    split; [exact Hk|]; split; [exact Hv|]; exact (IHe _ _ Ei). }
  assert (El : forall r o, element s = Ok r o ->
     o = EOF \/ (wf_el o = true /\ (is_text o = true -> text_stop r = true))).
  { intros r o H; rewrite element_eq in H.
    destruct (map eof (fun _ => EOF) s) as [r0 o0| |] eqn:E0.
    - apply map_ok in E0 as [x [_ ->]]; injection H as _ <-; now left.
    - right; destruct (plain_text s) as [r1 o1| |] eqn:E1.
      + injection H as <- <-.
        unfold plain_text, context in E1; apply map_ok in E1 as [x [E1 ->]].
        destruct (escaped_str_sound _ _ _ E1) as [_ [Hx [Hr Hx0]]].
        split; [|intros _; exact Hr].
        cbn [wf_el]; rewrite Hx, andb_true_r.
        destruct x; [|reflexivity].
        rewrite Hx0 in E0 by reflexivity; discriminate.
      + unfold block, map_res in H.
        destruct (closed_tag s) as [r1 [[k v] i]| |] eqn:Ec; try discriminate.
        injection H as <- <-.
        destruct (Ct _ _ _ _ eq_refl) as [Hk [Hv Hi]].
        unfold wf_list in Hi; apply andb_prop in Hi as [Hi1 Hi2].
        split; [|discriminate].
        cbn [wf_el block_of inner tag value]; rewrite Hk, Hi1, Hi2.
        destruct v; rewrite Hv; reflexivity.
      + discriminate.
    - discriminate. }
  split; [exact Ct|]; split; [exact El|].
  intros r es H; rewrite elements_eq in H.
  destruct (element s) as [s1 o| |] eqn:E; try discriminate.
  - destruct (Nat.eqb_spec (String.length s1) (String.length s)) as [|Hne]; [discriminate|].
    destruct (elements s1) as [r2 os| |] eqn:Es; try discriminate; cbn [bind] in H.
    injection H as <- <-.
    assert (Hl := element_length _ _ _ E).
    destruct (El _ _ eq_refl) as [->|[Ho Ht]].
    { apply element_eof_only_empty in E; subst; contradiction. }
    destruct (IH (String.length s1) ltac:(lia) s1 eq_refl) as [_ [IHo IHe]].
    pose proof (IHe _ _ Es) as Hos; unfold wf_list in *.
    apply andb_prop in Hos as [Hos1 Hos2].
    cbn [forallb]; rewrite Ho, Hos1; cbn [andb].
    destruct os as [|o' os']; [reflexivity|].
    apply no_adjacent_cons; [exact Hos2|].
    intros Hto; destruct (elements_cons _ _ _ _ Es) as [s2 [E2 _]].
    exact (element_after_text _ _ _ (Ht Hto) E2).
  - injection H as <- <-; reflexivity.
Qed.

Lemma parse_wf n : forall s, String.length s = n ->
  forall r es, parse s = Ok r es -> wf_list es = true.
Proof.
  induction n as [n IH] using (well_founded_induction lt_wf); intros s Hn r es H.
  rewrite parse_eq in H.
  destruct s as [|c s'].
  - injection H as <- <-; reflexivity.
  - cbn [eof] in H.
    destruct (element (String c s')) as [s1 o| |] eqn:E; try discriminate.
    destruct (Nat.eqb_spec (String.length s1) (String.length (String c s'))) as [|Hne];
      [discriminate|].
    destruct (parse s1) as [r2 os| |] eqn:Ep; try discriminate; cbn [bind] in H.
    injection H as <- <-.
    assert (Hl := element_length _ _ _ E).
    pose proof (IH (String.length s1) ltac:(lia) s1 eq_refl _ _ Ep) as Hos.
    destruct (proj1 (proj2 (wf_sound _ _ eq_refl)) _ _ E) as [->|[Ho Ht]].
    { apply element_eof_only_empty in E; subst; contradiction. }
    unfold wf_list in *; apply andb_prop in Hos as [Hos1 Hos2].
    cbn [forallb]; rewrite Ho, Hos1; cbn [andb].
    destruct os as [|o' os']; [reflexivity|].
    apply no_adjacent_cons; [exact Hos2|].
    intros Hto; destruct (parse_cons _ _ _ _ Ep) as [s2 [E2 _]].
    exact (element_after_text _ _ _ (Ht Hto) E2).
Qed.

(** ** Reading back the canonical source of a well-formed tree *)

Lemma to_source_el_block b :
  to_source_el (Block b) =
  String "[" (tag b ++ value_source (value b) ++ "]") ++ (to_source (inner b) ++ ("[/" ++ tag b ++ "]")).
Proof. reflexivity. Qed.

Lemma to_source_in l e : In e l -> String.length (to_source_el e) <= String.length (to_source l).
Proof.
  induction l as [|e' l IH]; [contradiction|]; intros [->|H]; cbn [to_source];
    rewrite slength_app; [lia|]; specialize (IH H); lia.
Qed.

Lemma wf_block_source e :
  wf_el e = true -> is_text e = false -> exists t, to_source_el e = String "[" t.
Proof.
  destruct e as [t|b|]; [discriminate|intros _ _|discriminate].
  rewrite to_source_el_block; eexists; reflexivity.
Qed.

Lemma wf_source_nonempty e : wf_el e = true -> to_source_el e <> EmptyString.
Proof.
  destruct e as [t|b|]; [|intros _; rewrite to_source_el_block; discriminate|discriminate].
  cbn [wf_el to_source_el]; destruct t; [discriminate|intros _; discriminate].
Qed.

Lemma canonical_head k v :
  tag_name_ok k = true -> value_ok v = true ->
  head_form k v (String "[" (k ++ value_source v ++ "]")).
Proof.
  intros Hk Hv; exists EmptyString, EmptyString; split; [reflexivity|]; split; [reflexivity|].
  split; [exact Hk|]; destruct v as [x|]; [|reflexivity].
  cbn [value_ok] in Hv; apply andb_prop in Hv as [Hn Hx].
  exists EmptyString, EmptyString, (quote x); split; [reflexivity|]; split; [reflexivity|].
  split; [right; split; [exact Hx|split; [|reflexivity]]|reflexivity].
  intros ->; discriminate.
Qed.

Lemma canonical_tail k : tag_name_ok k = true -> tail_form k ("[/" ++ k ++ "]").
Proof.
  intros Hk; exists k, EmptyString; split; [left; exists EmptyString; auto|auto].
Qed.

Lemma element_at_tail t : element ("[/" ++ t) = Error.
Proof.
  change ("[/" ++ t) with (String "[" (String "/" t)).
  rewrite element_at_bracket; unfold block; rewrite closed_tag_eq.
  assert (E : tag_head (String "[" (String "/" t)) = Error)
    by (apply tag_head_error_iff; right; eauto).
  rewrite E; reflexivity.
Qed.

Lemma text_stop_bracket t : text_stop (String "[" t) = true.
Proof. reflexivity. Qed.

Definition reparses (e : Element) : Prop :=
  forall r, wf_el e = true -> (is_text e = true -> text_stop r = true) ->
  element (to_source_el e ++ r) = Ok r e.

Lemma next_text_stop l r :
  wf_list l = true -> text_stop r = true ->
  text_stop (to_source l ++ r) = true \/ exists e l', l = e :: l' /\ is_text e = true.
Proof.
  destruct l as [|e l']; [intros _ Hr; now left|intros Hw _].
  destruct (is_text e) eqn:Ht; [right; eauto|left].
  unfold wf_list in Hw; cbn [forallb] in Hw.
  apply andb_prop in Hw as [Hw _]; apply andb_prop in Hw as [He _].
  destruct (wf_block_source e He Ht) as [t Et].
  cbn [to_source]; rewrite Et; reflexivity.
Qed.

Lemma wf_list_cons e l :
  wf_list (e :: l) = true ->
  wf_el e = true /\ wf_list l = true /\
  (is_text e = true -> forall e' l', l = e' :: l' -> is_text e' = false).
Proof.
  unfold wf_list; cbn [forallb]; intros H.
  apply andb_prop in H as [H1 H2]; apply andb_prop in H1 as [He Hl].
  split; [exact He|]; split.
  - rewrite Hl; destruct l as [|e' l']; [reflexivity|].
    cbn [no_adjacent_text] in H2 |- *; apply andb_prop in H2 as [_ H2]; exact H2.
  - intros Ht e' l' ->; cbn [no_adjacent_text] in H2; apply andb_prop in H2 as [H2 _].
    rewrite Ht in H2; destruct (is_text e'); [discriminate|reflexivity].
Qed.

Lemma text_stop_after l r :
  wf_list l = true -> text_stop r = true -> text_stop (to_source l ++ r) = true \/ l <> [] /\
  exists e l', l = e :: l' /\ is_text e = true.
Proof.
  intros Hw Hr; destruct (next_text_stop l r Hw Hr) as [H|[e [l' [-> H]]]]; [now left|].
  right; split; [discriminate|eauto].
Qed.

Lemma elements_source l r :
  Forall reparses l -> wf_list l = true -> (exists t, r = "[/" ++ t) ->
  elements (to_source l ++ r) = Ok r l.
Proof.
  intros Hall; induction Hall as [|e l He Hl IH]; intros Hw [t ->].
  - change (to_source [] ++ "[/" ++ t) with ("[/" ++ t).
    rewrite elements_eq, element_at_tail; reflexivity.
  - destruct (wf_list_cons _ _ Hw) as [Hwe [Hwl Hadj]].
    cbn [to_source]; rewrite sapp_assoc, elements_eq.
    rewrite He; [|exact Hwe|].
    + assert (Hne := wf_source_nonempty _ Hwe).
      destruct (Nat.eqb_spec (String.length (to_source l ++ "[/" ++ t))
                  (String.length (to_source_el e ++ to_source l ++ "[/" ++ t))) as [L|L].
      { rewrite (slength_app (to_source_el e)) in L.
        destruct (to_source_el e); [contradiction|simpl in L; lia]. }
      rewrite IH by eauto; reflexivity.
    + intros Ht; destruct l as [|e' l']; [reflexivity|].
      cbn [to_source]; rewrite sapp_assoc.
      assert (Hwe' : wf_el e' = true) by (destruct (wf_list_cons _ _ Hwl); tauto).
      destruct (wf_block_source e' Hwe' (Hadj Ht e' l' eq_refl)) as [u ->]; reflexivity.
Qed.

Lemma all_reparse : forall n e, String.length (to_source_el e) < n -> reparses e.
Proof.
  induction n as [|n IH]; intros e Hl; [lia|].
  destruct e as [t|b|]; intros r Hw Ht.
  - cbn [wf_el] in Hw; apply andb_prop in Hw as [Hn Hp].
    assert (Hne : t <> EmptyString) by (intros ->; discriminate).
    cbn [to_source_el]; rewrite element_eq.
    destruct t as [|c t']; [contradiction|].
    cbn [append map bind eof].
    change (String c (t' ++ r)) with (String c t' ++ r).
    unfold plain_text, context, map, bind.
    rewrite escaped_str_complete by (exact Hp || exact Hne || now apply Ht); reflexivity.
  - cbn [wf_el] in Hw.
    apply andb_prop in Hw as [Hw Hadj]; apply andb_prop in Hw as [Hw Hall].
    apply andb_prop in Hw as [Hk Hv].
    assert (Hi : Forall reparses (inner b)).
    { apply Forall_forall; intros e' Hin; apply IH.
      pose proof (to_source_in _ _ Hin) as L1.
      rewrite to_source_el_block in Hl; rewrite !slength_app in Hl; cbn [String.length] in Hl.
      lia. }
    rewrite to_source_el_block, !sapp_assoc.
    change (String "[" (tag b ++ value_source (value b) ++ "]") ++ ?X)
      with (String "[" ((tag b ++ value_source (value b) ++ "]") ++ X)).
    rewrite element_at_bracket; unfold block; rewrite closed_tag_eq.
    change (String "[" ((tag b ++ value_source (value b) ++ "]") ++ ?X))
      with (String "[" (tag b ++ value_source (value b) ++ "]") ++ X).
    rewrite (tag_head_complete _ _ _ _ (canonical_head _ _ Hk Hv)).
    rewrite elements_source by (exact Hi || (unfold wf_list; rewrite Hall, Hadj; reflexivity) ||
                                eauto).
    cbn [bind].
    rewrite <- (sapp_assoc (tag b) "]" r), <- (sapp_assoc "[/" (tag b ++ "]") r).
    rewrite (tag_end_complete _ _ _ (canonical_tail _ Hk)).
    destruct (string_dec (tag b) (tag b)) as [_|]; [|contradiction].
    destruct b as [i k [x|]]; reflexivity.
  - discriminate.
Qed.

Lemma parse_source l :
  Forall reparses l -> wf_list l = true -> parse (to_source l) = Ok EmptyString l.
Proof.
  intros Hall; induction Hall as [|e l He Hl IH]; intros Hw; [reflexivity|].
  destruct (wf_list_cons _ _ Hw) as [Hwe [Hwl Hadj]].
  assert (Hne := wf_source_nonempty _ Hwe).
  cbn [to_source]; rewrite parse_eq.
  destruct (to_source_el e) as [|c u] eqn:Ee; [contradiction|]; cbn [append eof].
  change (String c (u ++ to_source l)) with (String c u ++ to_source l).
  rewrite <- Ee, He; [|exact Hwe|].
  - rewrite Ee; cbn [append].
    destruct (Nat.eqb_spec (String.length (to_source l))
                (String.length (String c (u ++ to_source l)))) as [L|L].
    { cbn [String.length] in L; rewrite slength_app in L; lia. }
    rewrite IH by exact Hwl; reflexivity.
  - intros Ht; destruct l as [|e' l']; [reflexivity|].
    assert (Hwe' : wf_el e' = true) by (destruct (wf_list_cons _ _ Hwl); tauto).
    cbn [to_source].
    destruct (wf_block_source e' Hwe' (Hadj Ht e' l' eq_refl)) as [w ->]; reflexivity.
Qed.

Lemma print_parse l : wf_list l = true -> parse (to_source l) = Ok EmptyString l.
Proof.
  intros Hw; apply parse_source; [|exact Hw].
  apply Forall_forall; intros e _; apply (all_reparse (S (String.length (to_source_el e)))); lia.
Qed.

(** ** Input without tags, stray special characters, unclosed tags *)

Lemma in_chars_app c a b : in_chars c (a ++ b) = in_chars c a || in_chars c b.
Proof.
  induction a as [|d a IH]; [reflexivity|]; cbn [append in_chars].
  destruct (ascii_dec c d); [reflexivity|exact IH].
Qed.

Lemma tag_head_not_bracket c s : c <> "["%char -> tag_head (String c s) = Error.
Proof.
  intros Hc; apply tag_head_error_iff; left; intros t E; injection E as E _; contradiction.
Qed.

Lemma element_not_bracket c s :
  c <> "["%char -> plain_text (String c s) = Error -> element (String c s) = Error.
Proof.
  intros Hc Hp; rewrite element_eq; cbn [map bind eof]; rewrite Hp.
  unfold block; rewrite closed_tag_eq, tag_head_not_bracket by exact Hc; reflexivity.
Qed.

Lemma element_failure s : element s = Failure -> exists t, s = String "[" t.
Proof.
  intros H; rewrite element_eq in H.
  destruct s as [|c s']; [discriminate|]; cbn [map bind eof] in H.
  destruct (plain_text (String c s')) as [| |] eqn:Ep; try discriminate.
  - destruct (ascii_dec c "[") as [->|Hc]; [eauto|].
    unfold block in H; rewrite closed_tag_eq, tag_head_not_bracket in H by exact Hc.
    discriminate.
  - exfalso; unfold plain_text, context, map, bind in Ep.
    destruct (escaped_str (String c s')) eqn:E; try discriminate.
    exact (escaped_str_not_failure _ E).
Qed.

Lemma parse_failure_bracket n : forall s, String.length s = n ->
  parse s = Failure -> in_chars "[" s = true.
Proof.
  induction n as [n IH] using (well_founded_induction lt_wf); intros s Hn H.
  rewrite parse_eq in H; destruct s as [|c s']; [discriminate|]; cbn [eof] in H.
  destruct (element (String c s')) as [s1 o| |] eqn:E; try discriminate.
  - destruct (Nat.eqb_spec (String.length s1) (String.length (String c s'))) as [|L];
      [discriminate|].
    destruct (parse s1) eqn:Ep; try discriminate.
    assert (Hl := element_length _ _ _ E).
    destruct (element_consumes _ _ _ E) as [p Es]; rewrite Es, in_chars_app.
    rewrite (IH (String.length s1) ltac:(lia) s1 eq_refl Ep), orb_true_r; reflexivity.
  - destruct (element_failure _ E) as [t Et]; injection Et as -> _.
    cbn [in_chars]; destruct (ascii_dec "[" "["); [reflexivity|contradiction].
Qed.

Lemma renders_no_bracket_plain es s :
  renders ws_run es s -> in_chars "[" s = false -> forallb wf_el es = true -> plain_ok s = true.
Proof.
  induction 1 as [|e es p q Hp Hq IH]; [reflexivity|]; intros Hb Hw.
  rewrite in_chars_app in Hb; apply orb_false_iff in Hb as [Hb1 Hb2].
  cbn [forallb] in Hw; apply andb_prop in Hw as [He Hes].
  apply plain_ok_app_ok; [|exact (IH Hb2 Hes)].
  destruct Hp as [t|b h c t Hh _ _].
  - cbn [wf_el] in He; apply andb_prop in He as [_ He]; exact He.
  - exfalso; destruct Hh as [w1 [w4 [_ [_ Hh]]]].
    assert (Eh : exists u, h = String "[" u).
    { destruct (value b).
      - destruct Hh as [w2 [w3 [_ [_ [-> | ->]]]]]; eauto.
      - rewrite Hh; eauto. }
    destruct Eh as [u ->]; cbn [append in_chars] in Hb1.
    destruct (ascii_dec "[" "["); [discriminate|contradiction].
Qed.

Lemma parse_plain_input s :
  s <> EmptyString -> plain_ok s = true -> parse s = Ok EmptyString [Text s].
Proof.
  intros Hne Hp; rewrite parse_eq.
  destruct s as [|c s']; [contradiction|].
  cbn [eof]; rewrite element_eq; cbn [map bind eof].
  rewrite plain_text_plain by exact Hp.
  cbn [String.length Nat.eqb].
  rewrite parse_eq; reflexivity.
Qed.

Lemma plain_head_not_bracket x t :
  plain_ok x = true -> x <> EmptyString -> exists c u, x ++ t = String c u /\ c <> "["%char.
Proof.
  destruct x as [|c x']; [contradiction|]; intros Hp _; exists c, (x' ++ t); split; [reflexivity|].
  intros ->; discriminate.
Qed.

Lemma stray_cases t :
  stray t = true ->
  (exists r, t = String bs r /\
     match r with EmptyString => true | String d _ => negb (in_chars d escaped_str_escapable) end
       = true) \/
  (text_stop t = true /\ element t = Error).
Proof.
  destruct t as [|c r]; [discriminate|]; cbn [stray].
  destruct (ascii_dec c bs) as [->|Hbs]; [intros H; left; eauto|].
  destruct (ascii_dec c "[") as [->|Hbr].
  - intros H; right; split; [reflexivity|].
    destruct r as [|d r']; [discriminate|]; cbn [String.prefix] in H.
    destruct (ascii_dec "/" d) as [<-|]; [|discriminate].
    exact (element_at_tail r').
  - intros H; right.
    assert (Ht : text_stop (String c r) = true).
    { cbn [text_stop]; rewrite H; cbn [andb].
      destruct (Ascii.eqb_spec c bs); [contradiction|reflexivity]. }
    split; [exact Ht|].
    apply element_not_bracket; [exact Hbr|].
    apply plain_text_at_stop; [exact Ht|discriminate].
Qed.

Lemma element_bad_escape x r :
  plain_ok x = true ->
  match r with EmptyString => true | String d _ => negb (in_chars d escaped_str_escapable) end
    = true ->
  element (x ++ String bs r) = Error.
Proof.
  intros Hp Hr.
  assert (Ep : plain_text (x ++ String bs r) = Error).
  { unfold plain_text, context, map, bind; rewrite escaped_str_bad_escape by assumption.
    reflexivity. }
  destruct x as [|c x'].
  - apply element_not_bracket; [discriminate|exact Ep].
  - destruct (plain_head_not_bracket (String c x') (String bs r) Hp ltac:(discriminate))
      as [c' [u [E Hc]]].
    rewrite E in Ep |- *; apply element_not_bracket; assumption.
Qed.

Lemma parse_at_error_element t : t <> EmptyString -> element t = Error -> parse t = Error.
Proof.
  intros Hne H; rewrite parse_eq; destruct t as [|c t']; [contradiction|].
  cbn [eof]; rewrite H; reflexivity.
Qed.

Lemma parse_stray x t : plain_ok x = true -> stray t = true -> parse (x ++ t) = Error.
Proof.
  intros Hp Ht; destruct (stray_cases t Ht) as [[r [-> Hr]]|[Hs He]].
  - apply parse_at_error_element; [destruct x; discriminate|].
    now apply element_bad_escape.
  - destruct (string_dec x EmptyString) as [->|Hx].
    + apply parse_at_error_element; [destruct t; discriminate|exact He].
    + assert (Ee : element (x ++ t) = Ok t (Text x)).
      { destruct (plain_head_not_bracket x t Hp Hx) as [c [u [E _]]].
        rewrite element_eq, E; cbn [map bind eof]; rewrite <- E.
        unfold plain_text, context, map, bind.
        rewrite escaped_str_complete by assumption; reflexivity. }
      rewrite parse_eq.
      destruct x as [|c x']; [contradiction|]; cbn [append eof].
      change (String c (x' ++ t)) with (String c x' ++ t); rewrite Ee.
      destruct (Nat.eqb_spec (String.length t) (String.length (String c x' ++ t))) as [L|L].
      { rewrite slength_app in L; cbn [String.length] in L; lia. }
      rewrite parse_at_error_element by (destruct t; discriminate || exact He).
      reflexivity.
Qed.

Lemma elements_after_parse n : forall t, String.length t = n ->
  forall r es, parse t = Ok r es -> elements t = Error.
Proof.
  induction n as [n IH] using (well_founded_induction lt_wf); intros t Hn r es H.
  rewrite parse_eq in H; destruct t as [|c t'].
  - reflexivity.
  - cbn [eof] in H.
    destruct (element (String c t')) as [s1 o| |] eqn:E; try discriminate.
    destruct (Nat.eqb_spec (String.length s1) (String.length (String c t'))) as [|L];
      [discriminate|].
    destruct (parse s1) as [r2 os| |] eqn:Ep; try discriminate.
    assert (Hl := element_length _ _ _ E).
    rewrite elements_eq, E.
    destruct (Nat.eqb_spec (String.length s1) (String.length (String c t'))); [contradiction|].
    rewrite (IH (String.length s1) ltac:(lia) s1 eq_refl _ _ Ep); reflexivity.
Qed.

(** ** The claims *)

(** C1: parsing the input ssf[xx=Q123Q]aaa[/xx], where Q is a double
    quote, succeeds with the text [ssf] followed by the block [xx] whose
    value is [123], without its quotes, and whose only child is the text
    [aaa]. *)
Theorem parse_example_quoted_value :
  parse ("ssf[xx=" ++ quote "123" ++ "]aaa[/xx]") =
  Ok EmptyString
     [Text "ssf"; Block (mkBlock [Text "aaa"] "xx" (Some "123"))].
Proof. vm_compute; reflexivity. Qed.

(** C3: parsing the input [xx=Q123] (Q a double quote) fails fatally: after the opening quote the
    quoted value and its closing quote are mandatory, so any other outcome
    of the body becomes a [Failure] and no other alternative is tried. *)
Theorem parse_unterminated_quote_fatal :
  parse ("[xx=" ++ String dq "123]") = Failure /\
  element ("[xx=" ++ String dq "123]") = Failure /\
  forall t, string_quoted (String dq t) =
            match terminated escaped_str (char dq) t with
            | Ok r x => Ok r x
            | _ => Failure
            end.
Proof.
  split; [vm_compute; reflexivity|].
  split; [vm_compute; reflexivity|].
  intros t; unfold string_quoted, context, preceded, cut; simpl.
  destruct (terminated escaped_str (char dq) t); reflexivity.
Qed.




(** C8: parsing [foo=bar][xx=123][/xx][/foo] yields the block [foo] with
    value [bar] whose only child is the block [xx] with value [123] and no
    children; a tag pair with nothing in between has the empty list of
    children, as for [foo][/foo]. *)
Theorem parse_example_nested_blocks :
  parse "[foo=bar][xx=123][/xx][/foo]" =
  Ok EmptyString
     [Block (mkBlock [Block (mkBlock [] "xx" (Some "123"))] "foo" (Some "bar"))] /\
  parse "[foo][/foo]" = Ok EmptyString [Block (mkBlock [] "foo" None)].
Proof. split; vm_compute; reflexivity. Qed.

(** C9: whenever [parse] succeeds, no element of the result, and no child
    of a block in it at any depth, is the end-of-input sentinel [EOF]. *)
Theorem parse_result_has_no_eof s r es :
  parse s = Ok r es -> existsb has_eof es = false.
Proof.
  intros H; apply (parse_loop_no_eof (fuel s) s r).
  rewrite (parse_loop_fuel (fuel s) s) by (unfold fuel; lia); now f_equal.
Qed.

Lemma parse_result_has_no_eof_witness :
  parse ("ssf[xx=" ++ quote "123" ++ "]aaa[/xx]") =
    Ok EmptyString [Text "ssf"; Block (mkBlock [Text "aaa"] "xx" (Some "123"))] /\
  existsb has_eof [Text "ssf"; Block (mkBlock [Text "aaa"] "xx" (Some "123"))] = false.
Proof.
  split; [vm_compute; reflexivity|].
  apply (parse_result_has_no_eof ("ssf[xx=" ++ quote "123" ++ "]aaa[/xx]") EmptyString).
  vm_compute; reflexivity.
Defined.

(** C5: a non-empty plain text, with no unescaped double quote, backslash,
    bracket, slash or equals sign, parses as the one text element holding
    the whole input, escape sequences kept as they are. *)
Theorem parse_plain_text s :
  s <> EmptyString -> plain_ok s = true -> parse s = Ok EmptyString [Text s].
Proof.
  intros Hne Hp; rewrite parse_eq.
  destruct s as [|c s']; [contradiction|].
  cbn [eof]; rewrite element_eq; cbn [map bind eof].
  rewrite plain_text_plain by exact Hp.
  cbn [String.length Nat.eqb].
  rewrite parse_eq; reflexivity.
Qed.

Lemma parse_plain_text_witness :
  parse (" some " ++ String bs "n " ++ String bs "[text ") =
  Ok EmptyString [Text (" some " ++ String bs "n " ++ String bs "[text ")].
Proof.
  apply parse_plain_text; [discriminate | vm_compute; reflexivity].
Defined.

(** C2: a tag pair whose opening name differs from its closing name is
    rejected.  When the tag head of [s] reads the key [k], the children
    are read up to a tag tail, and the tail reads the name [e], the
    closed-tag rule succeeds exactly when [k] and [e] are equal (as
    strings, byte for byte), and then returns [k], the value and the
    children; when they differ, the closed-tag rule fails and so does the
    whole parse of [s]. *)
Theorem closed_tag_requires_same_name s r1 k v r2 inner r3 e :
  tag_head s = Ok r1 (k, v) ->
  elements r1 = Ok r2 inner ->
  tag_end r2 = Ok r3 e ->
  ((exists r x, closed_tag s = Ok r x) <-> k = e) /\
  (k = e -> closed_tag s = Ok r3 (k, v, inner)) /\
  (k <> e -> closed_tag s = Error /\ parse s = Error).
Proof.
  intros Hh Hi He.
  assert (Hct : closed_tag s = if string_dec k e then Ok r3 (k, v, inner) else Error).
  { rewrite closed_tag_eq, Hh, Hi; cbn [bind]; rewrite He; reflexivity. }
  destruct (tag_head_ok _ _ _ Hh) as [t [w [Hs _]]].
  destruct (string_dec k e) as [<-|Hne].
  - split; [split; [intros _; reflexivity|intros _; eauto]|].
    split; [intros _; exact Hct|intros Hne; contradiction].
  - split; [split; [intros [r [x Hx]]; congruence|intros Heq; contradiction]|].
    split; [intros Heq; contradiction|intros _].
    split; [exact Hct|].
    subst s; rewrite parse_at_bracket; unfold block; rewrite Hct; reflexivity.
Qed.

Lemma closed_tag_requires_same_name_witness :
  closed_tag "[foo]x[/bar]" = Error /\ parse "[foo]x[/bar]" = Error.
Proof.
  apply (closed_tag_requires_same_name "[foo]x[/bar]" "x[/bar]" "foo" None
           "[/bar]" [Text "x"] "" "bar");
    [vm_compute; reflexivity | vm_compute; reflexivity | vm_compute; reflexivity
    | discriminate].
Defined.

(** C4, counterexample: a bracket escaped by a backslash is plain text.
    The input backslash-[foo contains a [[] that is not followed by a
    slash and after which no tag head can be completed (the tag head rule
    fails fatally there), yet the parse succeeds with a single text. *)
Lemma escaped_bracket_parses_as_text :
  tag_head "[foo" = Failure /\
  parse (String bs "[foo") = Ok EmptyString [Text (String bs "[foo")].
Proof. split; vm_compute; reflexivity. Qed.

(** C4, amended: at every [[] where the parser begins an element (a
    position [reaches] from the start of the input: after a sequence of
    complete elements, or inside the body of an opened tag) and that is
    not followed by a slash, a tag head that cannot be completed is a
    fatal failure: plain text never consumes it, the tag head rule and
    the element rule fail fatally there, and the whole parse of the input
    fails fatally. *)
Theorem malformed_head_fatal s rest :
  reaches s (String "[" rest) ->
  (forall t, rest <> String "/" t) ->
  (forall r kv, tag_head (String "[" rest) <> Ok r kv) ->
  plain_text (String "[" rest) = Error /\
  tag_head (String "[" rest) = Failure /\
  element (String "[" rest) = Failure /\
  parse s = Failure.
Proof.
  intros R Hs Hno.
  assert (Hth : tag_head (String "[" rest) = Failure).
  { destruct (tag_head (String "[" rest)) as [r kv| |] eqn:E.
    - exfalso; exact (Hno r kv eq_refl).
    - exfalso; exact (tag_head_committed rest Hs E).
    - reflexivity. }
  assert (Hel : element (String "[" rest) = Failure) by now apply element_head_failure.
  split; [apply plain_text_bracket|].
  split; [exact Hth|]; split; [exact Hel|].
  exact (proj2 (fatal_element_propagates _ _ R Hel)).
Qed.

Lemma malformed_head_fatal_witness :
  plain_text "[foo" = Error /\ tag_head "[foo" = Failure /\
  element "[foo" = Failure /\ parse "a[foo" = Failure.
Proof.
  apply (malformed_head_fatal "a[foo" "foo").
  - apply (reaches_after_element "a[foo" "[foo" (Text "a"));
      [vm_compute; reflexivity | simpl; lia | apply reaches_here].
  - intros t H; discriminate.
  - intros r kv; vm_compute; discriminate.
Defined.

(** C10: an opening tag whose value is an empty pair of quotes, with any
    whitespace runs around its key and its [=] sign, at any position where
    the parser begins an element, makes the whole parse fail fatally: the
    quoted-value rule fails fatally on two adjacent quotes, and so do the
    tag head there and the parse of the input. *)
Theorem empty_quoted_value_fatal s w1 key w2 w3 rest :
  reaches s (String "[" (w1 ++ key ++ w2 ++ "=" ++ w3 ++ String dq (String dq rest))) ->
  ws_run w1 = true -> tag_name_ok key = true -> ws_run w2 = true -> ws_run w3 = true ->
  string_quoted (String dq (String dq rest)) = Failure /\
  tag_head (String "[" (w1 ++ key ++ w2 ++ "=" ++ w3 ++ String dq (String dq rest))) =
    Failure /\
  parse s = Failure.
Proof.
  intros R H1 Hk H2 H3.
  pose proof (tag_head_empty_quoted_value w1 key w2 w3 rest H1 Hk H2 H3) as Hth.
  split; [reflexivity|]; split; [exact Hth|].
  exact (proj2 (fatal_element_propagates _ _ R (element_head_failure _ Hth))).
Qed.

Lemma empty_quoted_value_fatal_witness :
  string_quoted (String dq (String dq "]text[/foo]")) = Failure /\
  tag_head ("[foo=" ++ quote EmptyString ++ "]text[/foo]") = Failure /\
  parse ("[foo=" ++ quote EmptyString ++ "]text[/foo]") = Failure.
Proof.
  exact (empty_quoted_value_fatal ("[foo=" ++ quote EmptyString ++ "]text[/foo]")
           EmptyString "foo" EmptyString EmptyString "]text[/foo]"
           (reaches_here _) ltac:(reflexivity) ltac:(vm_compute; reflexivity)
           ltac:(reflexivity) ltac:(reflexivity)).
Defined.




(** ** Further properties of the parser *)

(** [escaped_str] never fails fatally.  It succeeds with [x] and the rest
    [r] exactly when the input is [x] followed by [r], [x] is plain text
    (escape pairs kept as written), [r] is empty or starts with a special
    character other than the backslash, and [x] is empty only on the empty
    input. *)
Theorem escaped_str_spec s r x :
  escaped_str s <> Failure /\
  (escaped_str s = Ok r x <->
   s = x ++ r /\ plain_ok x = true /\ text_stop r = true /\ (x = EmptyString -> s = EmptyString)).
Proof.
  split; [apply escaped_str_not_failure|split; [apply escaped_str_sound|]].
  intros [-> [Hp [Hr Hx]]].
  destruct (string_dec x EmptyString) as [->|Hne].
  - rewrite (Hx eq_refl); simpl in Hx; rewrite (Hx eq_refl); reflexivity.
  - now apply escaped_str_complete.
Qed.

(** [string_quoted] fails recoverably exactly on the inputs that do not
    start with a double quote, and succeeds with [x] exactly on a non-empty
    plain text [x] between double quotes followed by the rest. *)
Theorem string_quoted_spec s r x :
  (string_quoted s = Error <-> (forall t, s <> String dq t)) /\
  (string_quoted s = Ok r x <-> s = quote x ++ r /\ plain_ok x = true /\ x <> EmptyString).
Proof.
  split; [apply string_quoted_error|split; [apply string_quoted_sound|]].
  intros [-> [Hp Hn]]; now apply string_quoted_complete.
Qed.

(** [string_without_space] never fails fatally, and succeeds with [x]
    exactly when the input is a whitespace run, then a bare name [x], then
    a rest that is empty or starts with whitespace or a special
    character. *)
Theorem string_without_space_spec s r x :
  string_without_space s <> Failure /\
  (string_without_space s = Ok r x <->
   exists w, s = w ++ x ++ r /\ ws_run w = true /\ tag_name_ok x = true /\ name_stop r = true).
Proof.
  split; [apply sws_not_failure|split; [apply sws_sound|]].
  intros [w [-> [Hw [Hx Hr]]]]; now apply sws_complete.
Qed.

(** [tag_value] succeeds with [x] exactly on a whitespace run and a bare
    name [x] (up to whitespace or a special character), or on a non-empty
    plain text [x] in double quotes. *)
Theorem tag_value_spec s r x :
  tag_value s = Ok r x <->
  (exists w, s = w ++ x ++ r /\ ws_run w = true /\ tag_name_ok x = true /\ name_stop r = true) \/
  (s = quote x ++ r /\ plain_ok x = true /\ x <> EmptyString).
Proof. apply tag_value_iff. Qed.

(** [tag_head] succeeds with the key [k] and the value [v] exactly when
    the input starts with a tag head for them: a bracket, a bare name [k],
    optionally an equals sign and the value (bare or quoted), and a closing
    bracket, with whitespace runs allowed before the key, around the equals
    sign and before the closing bracket. *)
Theorem tag_head_spec s r k v :
  tag_head s = Ok r (k, v) <-> exists h, s = h ++ r /\ head_form k v h.
Proof.
  split; [apply tag_head_sound|intros [h [-> Hh]]; now apply tag_head_complete].
Qed.

(** [tag_head] fails recoverably only when the input does not start with
    an opening bracket or starts with a bracket and a slash; after any
    other opening bracket it either succeeds or fails fatally. *)
Theorem tag_head_error_spec s :
  tag_head s = Error <->
  (forall t, s <> String "[" t) \/ (exists t, s = String "[" (String "/" t)).
Proof. apply tag_head_error_iff. Qed.

(** [tag_end] succeeds with the name [e] exactly when the input starts
    with a tag tail for [e] (bracket, slash, the name bare or quoted, a
    whitespace run, closing bracket), and fails recoverably exactly when
    the input does not start with a bracket and a slash. *)
Theorem tag_end_spec s r e :
  (tag_end s = Ok r e <-> exists t, s = t ++ r /\ tail_form e t) /\
  (tag_end s = Error <-> (forall t, s <> "[/" ++ t)).
Proof.
  split; [split; [apply tag_end_sound|intros [t [-> Ht]]; now apply tag_end_complete]|].
  apply tag_end_error_iff.
Qed.

(** Every tree returned by [parse] is well formed: its texts are non-empty
    plain text, no two texts are adjacent, tag names are bare names, values
    are non-empty plain text, and no end-of-input element occurs, at any
    depth. *)
Theorem parse_output_wf s r es : parse s = Ok r es -> wf_list es = true.
Proof. exact (parse_wf _ s eq_refl r es). Qed.

Lemma parse_output_wf_witness :
  parse ("ssf[xx=" ++ quote "123" ++ "]aaa[/xx]") =
    Ok EmptyString [Text "ssf"; Block (mkBlock [Text "aaa"] "xx" (Some "123"))] /\
  wf_list [Text "ssf"; Block (mkBlock [Text "aaa"] "xx" (Some "123"))] = true.
Proof.
  split; [vm_compute; reflexivity|].
  apply (parse_output_wf ("ssf[xx=" ++ quote "123" ++ "]aaa[/xx]") EmptyString).
  vm_compute; reflexivity.
Defined.

(** Printing a well-formed tree in the canonical syntax (texts as they are,
    heads as [[k]] or [[k=Qv Q]], tails as [[/k]]) and parsing the result
    gives back the same tree, with the whole input consumed. *)
Theorem print_then_parse es :
  wf_list es = true -> parse (to_source es) = Ok EmptyString es.
Proof. apply print_parse. Qed.

Lemma print_then_parse_witness :
  wf_list [Text "a "; Block (mkBlock [Text "x"; Block (mkBlock [] "c" None)] "b" (Some "v w"))]
    = true /\
  parse (to_source [Text "a "; Block (mkBlock [Text "x"; Block (mkBlock [] "c" None)] "b" (Some "v w"))])
    = Ok EmptyString
        [Text "a "; Block (mkBlock [Text "x"; Block (mkBlock [] "c" None)] "b" (Some "v w"))].
Proof.
  split; [reflexivity|].
  apply print_then_parse; reflexivity.
Defined.

(** Parsing is a normalisation: the canonical source of any tree that
    [parse] returns parses back to that same tree. *)
Theorem parse_normalises s r es :
  parse s = Ok r es -> parse (to_source es) = Ok EmptyString es.
Proof. intros H; apply print_parse; exact (parse_wf _ s eq_refl r es H). Qed.

Lemma parse_normalises_witness :
  parse "[ foo = bar ]x[/ foo ]" =
    Ok EmptyString [Block (mkBlock [Text "x"] "foo" (Some "bar"))] /\
  parse (to_source [Block (mkBlock [Text "x"] "foo" (Some "bar"))]) =
    Ok EmptyString [Block (mkBlock [Text "x"] "foo" (Some "bar"))].
Proof.
  split; [vm_compute; reflexivity|].
  apply (parse_normalises "[ foo = bar ]x[/ foo ]" EmptyString).
  vm_compute; reflexivity.
Defined.

(** A successful parse returns the empty list exactly on the empty
    input. *)
Theorem parse_empty_iff s r es :
  parse s = Ok r es -> (es = [] <-> s = EmptyString).
Proof.
  intros H; destruct (parse_renders _ s eq_refl r es H) as [_ Hr]; split.
  - intros ->; inversion Hr; reflexivity.
  - intros ->; rewrite parse_eq in H; cbn [eof] in H; injection H as _ <-; reflexivity.
Qed.

Lemma parse_empty_iff_witness :
  parse "abc" = Ok EmptyString [Text "abc"] /\ ([Text "abc"] = [] <-> "abc" = EmptyString).
Proof.
  split; [vm_compute; reflexivity|].
  apply (parse_empty_iff "abc" EmptyString); vm_compute; reflexivity.
Defined.

(** On an input with no opening bracket, [parse] returns the empty list
    for the empty input, the single text element holding the whole input
    when it is plain text, and a recoverable error otherwise; it never
    fails fatally there. *)
Theorem parse_bracket_free s :
  in_chars "[" s = false ->
  parse s = if String.eqb s EmptyString then Ok EmptyString []
            else if plain_ok s then Ok EmptyString [Text s] else Error.
Proof.
  intros Hb; destruct (String.eqb_spec s EmptyString) as [->|Hne]; [reflexivity|].
  destruct (plain_ok s) eqn:Hp; [now apply parse_plain_input|].
  destruct (parse s) as [r es| |] eqn:E.
  - exfalso; destruct (parse_renders _ s eq_refl r es E) as [_ Hr].
    pose proof (parse_wf _ s eq_refl r es E) as Hw; unfold wf_list in Hw.
    apply andb_prop in Hw as [Hw _].
    rewrite (renders_no_bracket_plain es s Hr Hb Hw) in Hp; discriminate.
  - reflexivity.
  - rewrite (parse_failure_bracket _ s eq_refl E) in Hb; discriminate.
Qed.

Lemma parse_bracket_free_witness :
  in_chars "[" "a=b" = false /\ parse "a=b" = Error.
Proof.
  split; [reflexivity|].
  exact (parse_bracket_free "a=b" eq_refl).
Defined.

(** After a plain text (possibly empty), an unescaped double quote,
    closing bracket, slash or equals sign, a backslash not followed by an
    escapable character, or a closing tag with no open tag makes the whole
    parse fail recoverably. *)
Theorem parse_stray_char x t :
  plain_ok x = true -> stray t = true -> parse (x ++ t) = Error.
Proof. apply parse_stray. Qed.

Lemma parse_stray_char_witness :
  plain_ok "ab" = true /\ stray "[/b]c" = true /\ parse ("ab" ++ "[/b]c") = Error.
Proof.
  split; [reflexivity|]; split; [reflexivity|].
  apply parse_stray_char; reflexivity.
Defined.

(** A tag whose head is read but whose body parses to the end of the input
    with no tail is rejected: the closed-tag rule fails recoverably, because
    the loop over the children stops with no progress at the end of the
    input, and so does the whole parse. *)
Theorem unclosed_tag_error s r1 kv r es :
  tag_head s = Ok r1 kv -> parse r1 = Ok r es -> closed_tag s = Error /\ parse s = Error.
Proof.
  intros Hh Hp.
  assert (Hc : closed_tag s = Error).
  { rewrite closed_tag_eq, Hh; destruct kv as [k v].
    rewrite (elements_after_parse _ r1 eq_refl r es Hp); reflexivity. }
  split; [exact Hc|].
  destruct kv as [k v]; destruct (tag_head_sound _ _ _ _ Hh) as [h [-> Hf]].
  assert (Eh : exists u, h = String "[" u).
  { destruct Hf as [w1 [w4 [_ [_ [_ Hv]]]]]; destruct v as [x|].
    - destruct Hv as [w2 [w3 [t [_ [_ [_ ->]]]]]]; eauto.
    - rewrite Hv; eauto. }
  destruct Eh as [u ->].
  apply parse_at_error_element; [discriminate|].
  change (String "[" u ++ r1) with (String "[" (u ++ r1)).
  rewrite element_at_bracket; unfold block.
  change (String "[" (u ++ r1)) with (String "[" u ++ r1); rewrite Hc; reflexivity.
Qed.

Lemma unclosed_tag_error_witness :
  tag_head "[a]xyz" = Ok "xyz" ("a", None) /\ parse "xyz" = Ok EmptyString [Text "xyz"] /\
  closed_tag "[a]xyz" = Error /\ parse "[a]xyz" = Error.
Proof.
  split; [vm_compute; reflexivity|]; split; [vm_compute; reflexivity|].
  apply (unclosed_tag_error "[a]xyz" "xyz" ("a", None) EmptyString [Text "xyz"]);
    vm_compute; reflexivity.
Defined.
